(** * container-source-policy: the image pinning core

    A shallow embedding of the Go packages [internal/registry],
    [internal/dhi] and [internal/pin], and the properties of the policy
    document they produce.

    Conventions.
    - A Go [string] is a Rocq [string] (a sequence of bytes), a [[]byte] is
      a [list Byte.byte].
    - A Go function returning [(T, error)] that belongs to this repository
      returns a pair whose second component is [None] for a nil error.
      A function of an imported library returns a sum [string + T]: the
      left injection is the text of the library's error.
    - The registry, the file system, the hash and the parsers of imported
      libraries are parameters; a run sees one fixed environment. *)

From Stdlib Require Import Ascii.
From stdpp Require Import base option list gmap strings pretty.

(** ** Go package [strings] *)

Module GoStrings.

(** [strings.HasPrefix(s, prefix)] *)
Fixpoint HasPrefix (s prefix : string) {struct prefix} : bool :=
  match prefix with
  | EmptyString => true
  | String p prefix' =>
      match s with
      | EmptyString => false
      | String c s' => Ascii.eqb c p && HasPrefix s' prefix'
      end
  end.

(** [s[n:]] *)
Fixpoint skip (n : nat) (s : string) : string :=
  match n, s with
  | S n', String _ s' => skip n' s'
  | _, _ => s
  end.

(** [strings.TrimPrefix(s, prefix)] *)
Definition TrimPrefix (s prefix : string) : string :=
  if HasPrefix s prefix then skip (String.length prefix) s else s.

(** [strings.Contains(s, substr)] *)
Fixpoint Contains (s substr : string) : bool :=
  HasPrefix s substr ||
  match s with
  | EmptyString => false
  | String _ s' => Contains s' substr
  end.

(** The ASCII fast path of [strings.ToLower]: a byte below
    [utf8.RuneSelf] (0x80), and the lower-case form of such a byte. *)
Definition isASCIIByte (c : ascii) : bool :=
  (nat_of_ascii c <? 128)%nat.

Fixpoint isASCII (s : string) : bool :=
  match s with
  | EmptyString => true
  | String c s' => isASCIIByte c && isASCII s'
  end.

Definition lowerByte (c : ascii) : ascii :=
  let n := nat_of_ascii c in
  if ((65 <=? n) && (n <=? 90))%nat then ascii_of_nat (n + 32) else c.

Fixpoint lowerASCII (s : string) : string :=
  match s with
  | EmptyString => EmptyString
  | String c s' => String (lowerByte c) (lowerASCII s')
  end.

Section ToLower.
(** [strings.Map(unicode.ToLower, s)], the path taken for a string that
    holds a byte outside ASCII; it depends on the Unicode tables. *)
Variable MapUnicodeToLower : string → string.

(** [strings.ToLower(s)] *)
Definition ToLower (s : string) : string :=
  if isASCII s then lowerASCII s else MapUnicodeToLower s.
End ToLower.

End GoStrings.

(** ** Go [error] values *)

(** The error values that reach this code: the package-level sentinel of
    [internal/dhi] (an [errors.New] value, equal only to itself), an error
    made by an imported library, known here by its text, and the result of
    [fmt.Errorf] with a [%w] verb, which keeps the formatted text and the
    wrapped cause. *)
Inductive error : Type :=
| sentinelNotEligible : error
| foreignError (text : string) : error
| wrapError (msg : string) (err : error) : error.

(** [err.Error()] *)
Definition Error (e : error) : string :=
  match e with
  | sentinelNotEligible => "image not eligible for DHI mapping"
  | foreignError text => text
  | wrapError msg _ => msg
  end.

(** The outcome of a call into a library: its value, or the text of the
    error it made. *)
Definition outcome (A : Type) : Type := (string + A)%type.

(** ** Go package [github.com/containers/image/v5/docker/reference]

    An imported library, not part of the sources at hand.  What the code
    uses of it is written after the library: the fields of its [reference]
    struct, the type assertions on them, the rendering of a reference and
    the two combinators [WithTag] and [WithDigest].  Its parser is left as
    a parameter of [MapToDHI]. *)

Module reference.
Import GoStrings.

(** [digest.Digest] is a string type. *)
Definition Digest : Type := string.

(** A [reference.Named] value: the library's [reference] struct.  A value
    whose dynamic type implements [Tagged] has a tag, one that implements
    [Digested] has a digest. *)
Record Named : Type := mkNamed {
  domain : string;
  path : string;
  tag : option string;
  digest : option Digest;
}.

#[export] Instance Named_eq_dec : EqDecision Named.
Proof. solve_decision. Defined.

(** [reference.Domain(ref)] and [reference.Path(ref)] *)
Definition Domain (ref : Named) : string := domain ref.
Definition Path (ref : Named) : string := path ref.

(** [_, ok := ref.(reference.Tagged)] and [_, ok := ref.(reference.Digested)] *)
Definition isTagged (ref : Named) : bool :=
  match tag ref with Some _ => true | None => false end.
Definition isDigested (ref : Named) : bool :=
  match digest ref with Some _ => true | None => false end.

(** [ref.Name()] and [ref.String()] *)
Definition Name (ref : Named) : string :=
  if String.eqb (domain ref) "" then path ref
  else domain ref +:+ "/" +:+ path ref.

Definition Named_String (ref : Named) : string :=
  Name ref
  +:+ match tag ref with Some t => ":" +:+ t | None => "" end
  +:+ match digest ref with Some d => "@" +:+ d | None => "" end.

(** The tag grammar [[\w][\w.-]{0,127}] behind [anchoredTagRegexp]. *)
Definition isWordByte (c : ascii) : bool :=
  let n := nat_of_ascii c in
  ((48 <=? n) && (n <=? 57) || (65 <=? n) && (n <=? 90)
   || (97 <=? n) && (n <=? 122) || (n =? 95))%nat.

Definition isTagByte (c : ascii) : bool :=
  isWordByte c || Ascii.eqb c "." || Ascii.eqb c "-".

Fixpoint allBytes (p : ascii → bool) (s : string) : bool :=
  match s with
  | EmptyString => true
  | String c s' => p c && allBytes p s'
  end.

Definition anchoredTagRegexp (t : string) : bool :=
  match t with
  | EmptyString => false
  | String c rest =>
      isWordByte c && allBytes isTagByte rest && (String.length rest <=? 127)%nat
  end.

(** [reference.WithTag(name, tag)]: keeps the repository and a digest the
    name carries. *)
Definition WithTag (name : Named) (t : string) : outcome Named :=
  if anchoredTagRegexp t
  then inr {| domain := domain name; path := path name;
              tag := Some t; digest := digest name |}
  else inl "invalid tag format".

Section WithDigest.
(** The digest grammar behind [anchoredDigestRegexp]. *)
Variable anchoredDigestRegexp : string → bool.

(** [reference.WithDigest(name, digest)]: keeps the repository and a tag
    the name carries. *)
Definition WithDigest (name : Named) (d : Digest) : outcome Named :=
  if anchoredDigestRegexp d
  then inr {| domain := domain name; path := path name;
              tag := tag name; digest := Some d |}
  else inl "invalid digest format".
End WithDigest.

End reference.

(** ** Package [internal/registry] *)

Module registry.
Import GoStrings reference.

(** A [Client] stands for the registry client together with what its
    system context reaches: the docker transport of containers/image.
    [NewReference] is [docker.NewReference], [NewImageSource] is
    [imgRef.NewImageSource(ctx, c.sysCtx)] and [GetManifest] is
    [imgSrc.GetManifest(ctx, nil)], whose second result is what the
    transport reports about the manifest besides its bytes. *)
Record Client : Type := mkClient {
  ImageReference : Type;
  ImageSource : Type;
  NewReference : Named → outcome ImageReference;
  NewImageSource : ImageReference → outcome ImageSource;
  GetManifest : ImageSource → outcome (list Byte.byte * string);
}.

(** Lines 116-124 of [GetDigest]: add the default tag if the reference
    has neither a tag nor a digest. *)
Definition defaultTagged (ref : Named) : outcome Named :=
  if negb (isTagged ref) then
    if negb (isDigested ref) then WithTag ref "latest" else inr ref
  else inr ref.

Section GetDigest.
(** [manifest.Digest] of containers/image. *)
Variable manifest_Digest : list Byte.byte → outcome Digest.

(** Lines 126-147 of [GetDigest]: what is done with the reference once
    it has its default tag.  The second result of [GetManifest] is
    dropped; the deferred [imgSrc.Close()] has no part in the result. *)
Definition resolve (c : Client) (ref : Named) : string * option error :=
  match NewReference c ref with
  | inl err =>
      ("", Some (wrapError ("failed to create docker reference: " +:+ err)
                           (foreignError err)))
  | inr imgRef =>
  match NewImageSource c imgRef with
  | inl err =>
      ("", Some (wrapError ("failed to create image source for "
                            +:+ Named_String ref +:+ ": " +:+ err)
                           (foreignError err)))
  | inr imgSrc =>
  match GetManifest c imgSrc with
  | inl err =>
      ("", Some (wrapError ("failed to get manifest for "
                            +:+ Named_String ref +:+ ": " +:+ err)
                           (foreignError err)))
  | inr (manifestBytes, _) =>
  match manifest_Digest manifestBytes with
  | inl err =>
      ("", Some (wrapError ("failed to compute manifest digest for "
                            +:+ Named_String ref +:+ ": " +:+ err)
                           (foreignError err)))
  | inr digest => (digest, None)
  end end end end.

(** [(c *Client) GetDigest(ctx, ref)] *)
Definition GetDigest (c : Client) (ref : Named) : string * option error :=
  match defaultTagged ref with
  | inl err =>
      ("", Some (wrapError ("failed to add default tag: " +:+ err)
                           (foreignError err)))
  | inr ref => resolve c ref
  end.
End GetDigest.

Section IsNotFoundOrAuthError.
Variable MapUnicodeToLower : string → string.

(** [IsNotFoundOrAuthError(err)] *)
Definition IsNotFoundOrAuthError (err : option error) : bool :=
  match err with
  | None => false
  | Some err =>
      let errStr := ToLower MapUnicodeToLower (Error err) in
      if Contains errStr "401" ||
         Contains errStr "403" ||
         Contains errStr "404"
      then true
      else if Contains errStr "manifest unknown" ||
              Contains errStr "not found" ||
              Contains errStr "unauthorized" ||
              Contains errStr "authentication required" ||
              Contains errStr "denied" ||
              Contains errStr "does not exist"
      then true
      else false
  end.
End IsNotFoundOrAuthError.

Section CheckAuth.
Variable MapUnicodeToLower : string → string.
(** [reference.ParseNormalizedNamed] *)
Variable ParseNormalizedNamed : string → outcome Named.

(** [(c *Client) CheckAuth(ctx, registry)].  The error of the login hint
    is made by [fmt.Errorf] without a [%w] verb: it has a text and wraps
    nothing.  The [imgSrc.Close()] of the last lines has no part in the
    result. *)
Definition CheckAuth (c : Client) (registry : string) : option error :=
  let refStr := registry +:+ "/auth-check:test" in
  match ParseNormalizedNamed refStr with
  | inl err =>
      Some (wrapError ("invalid registry reference: " +:+ err) (foreignError err))
  | inr ref =>
  match NewReference c ref with
  | inl err =>
      Some (wrapError ("failed to create docker reference: " +:+ err)
                      (foreignError err))
  | inr imgRef =>
  match NewImageSource c imgRef with
  | inl err =>
      let errStr := ToLower MapUnicodeToLower err in
      if Contains errStr "404" ||
         Contains errStr "not found" ||
         Contains errStr "manifest unknown" ||
         Contains errStr "name unknown" ||
         Contains errStr "unknown name"
      then None
      else if Contains errStr "unauthorized" ||
              Contains errStr "authentication required" ||
              Contains errStr "denied" ||
              Contains errStr "401" ||
              Contains errStr "403"
      then Some (foreignError ("authentication failed for " +:+ registry
                               +:+ ": run 'docker login " +:+ registry
                               +:+ "' first"))
      else Some (wrapError ("failed to connect to " +:+ registry +:+ ": " +:+ err)
                           (foreignError err))
  | inr imgSrc => None
  end end end.
End CheckAuth.

End registry.

(** ** Package [internal/dhi] *)

Module dhi.
Import GoStrings reference.

Definition ErrNotEligible : error := sentinelNotEligible.

Definition Registry : string := "dhi.io".
Definition DockerHubDomain : string := "docker.io".
Definition LibraryPrefix : string := "library/".

(** [CanMapToDHI(ref)] *)
Definition CanMapToDHI (ref : Named) : bool :=
  let domain := Domain ref in
  let path := Path ref in
  if negb (String.eqb domain DockerHubDomain) then false
  else HasPrefix path LibraryPrefix.

Section MapToDHI.
(** [reference.ParseNormalizedNamed] *)
Variable ParseNormalizedNamed : string → outcome Named.

(** [MapToDHI(ref)] *)
Definition MapToDHI (ref : Named) : option Named * option error :=
  if negb (CanMapToDHI ref) then (None, Some ErrNotEligible)
  else
    let path := Path ref in
    let dhiPath := TrimPrefix path LibraryPrefix in
    let dhiRefStr := Registry +:+ "/" +:+ dhiPath in
    let dhiRefStr :=
      match tag ref with
      | Some t => dhiRefStr +:+ ":" +:+ t
      | None => dhiRefStr
      end in
    match ParseNormalizedNamed dhiRefStr with
    | inr named => (Some named, None)
    | inl err => (None, Some (foreignError err))
    end.
End MapToDHI.

End dhi.

(** ** Package [internal/dockerfile] *)

Module dockerfile.
Import reference.

(** Modelled from the spec: the package is not part of the sources at
    hand.  An extracted reference keeps the text as written in the build
    instructions ([Original]) next to its parsed form ([Ref]), the two
    fields [GeneratePolicy] reads. *)
Record ImageRef : Type := mkImageRef {
  Original : string;
  Ref : Named;
}.

#[export] Instance ImageRef_eq_dec : EqDecision ImageRef.
Proof. solve_decision. Defined.

End dockerfile.

(** ** Package [internal/policy] *)

Module policy.

(** Modelled from the spec: the package is not part of the sources at
    hand.  A rule has a selector identifier, the action convert and an
    update made of the new identifier and its attributes; a policy
    document is the ordered sequence of its rules. *)
Inductive PolicyAction : Type := CONVERT.

Record Rule : Type := mkRule {
  selectorIdentifier : string;
  action : PolicyAction;
  updatesIdentifier : string;
  updatesAttrs : list (string * string);
}.

Record Policy : Type := mkPolicy { Rules : list Rule }.

(** The scheme of an image source identifier. *)
Definition imageScheme : string := "docker-image://".

(** Modelled from the spec: [NewPolicy] is the empty document. *)
Definition NewPolicy : Policy := {| Rules := [] |}.

(** Modelled from the spec: [AddPinRule] appends one rule whose selector
    is the scheme followed by the reference as written, and whose update
    is the scheme followed by the digest-qualified reference, with no
    attribute. *)
Definition AddPinRule (pol : Policy) (original pinned : string) : Policy :=
  {| Rules := Rules pol ++
       [ {| selectorIdentifier := imageScheme +:+ original;
            action := CONVERT;
            updatesIdentifier := imageScheme +:+ pinned;
            updatesAttrs := [] |} ] |}.

End policy.

(** ** Package [internal/pin] *)

Module pin.
Import GoStrings reference registry dockerfile policy.

Record Options : Type := mkOptions { Dockerfiles : list string }.

(** What a run does to the world and to the document, in order: the
    files it parses, the references it asks the registry about and the
    rules it appends.  The trace is ghost state: no decision reads it. *)
Inductive Event : Type :=
| ParseFileCall (dockerfilePath : string)
| GetDigestCall (ref : ImageRef)
| AddPinRuleCall (ref : ImageRef) (pinned : string).

(** The variables of [GeneratePolicy] that live across iterations. *)
Record Run : Type := mkRun {
  seen : gmap string bool;
  pol : Policy;
  trace : list Event;
}.

(** [seen[key]] on a Go map: the zero value for a missing key. *)
Definition seenAt (m : gmap string bool) (key : string) : bool :=
  default false (m !! key).

Section GeneratePolicy.
(** The environment of a run. *)
Variable ParseFile : string → outcome (list ImageRef).
Variable manifest_Digest : list Byte.byte → outcome Digest.
Variable digest_Parse : string → outcome Digest.
Variable anchoredDigestRegexp : string → bool.
(** [registry.NewClient()] in this environment (a registries
    configuration that does not load costs a warning on the standard
    error stream and nothing else). *)
Variable client : Client.

(** The body of the inner loop, lines 36-65. *)
Definition pinRef (st : Run) (ref : ImageRef) : Run * option error :=
  if seenAt (seen st) (Original ref) then (st, None)
  else
    let st := {| seen := <[Original ref := true]> (seen st);
                 pol := pol st; trace := trace st |} in
    if isDigested (Ref ref) then (st, None)
    else
      let st := {| seen := seen st; pol := pol st;
                   trace := trace st ++ [GetDigestCall ref] |} in
      match GetDigest manifest_Digest client (Ref ref) with
      | (_, Some err) =>
          (st, Some (wrapError ("failed to get digest for "
                                +:+ Original ref +:+ ": " +:+ Error err) err))
      | (digestStr, None) =>
      match digest_Parse digestStr with
      | inl err =>
          (st, Some (wrapError ("failed to parse digest "
                                +:+ digestStr +:+ ": " +:+ err)
                               (foreignError err)))
      | inr d =>
      match WithDigest anchoredDigestRegexp (Ref ref) d with
      | inl err =>
          (st, Some (wrapError ("failed to create pinned reference for "
                                +:+ Original ref +:+ ": " +:+ err)
                               (foreignError err)))
      | inr pinnedRef =>
          ({| seen := seen st;
              pol := AddPinRule (pol st) (Original ref) (Named_String pinnedRef);
              trace := trace st ++ [AddPinRuleCall ref (Named_String pinnedRef)] |},
           None)
      end end end.

(** The inner loop, [for _, ref := range refs]. *)
Fixpoint pinRefs (st : Run) (refs : list ImageRef) : Run * option error :=
  match refs with
  | [] => (st, None)
  | ref :: refs' =>
      match pinRef st ref with
      | (st', None) => pinRefs st' refs'
      | (st', Some err) => (st', Some err)
      end
  end.

(** The body of the outer loop, lines 30-66. *)
Definition pinFile (st : Run) (dockerfilePath : string) : Run * option error :=
  let st := {| seen := seen st; pol := pol st;
               trace := trace st ++ [ParseFileCall dockerfilePath] |} in
  match ParseFile dockerfilePath with
  | inl err =>
      (st, Some (wrapError ("failed to parse " +:+ dockerfilePath
                            +:+ ": " +:+ err) (foreignError err)))
  | inr refs => pinRefs st refs
  end.

(** The outer loop, [for _, dockerfilePath := range opts.Dockerfiles]. *)
Fixpoint pinFiles (st : Run) (paths : list string) : Run * option error :=
  match paths with
  | [] => (st, None)
  | dockerfilePath :: paths' =>
      match pinFile st dockerfilePath with
      | (st', None) => pinFiles st' paths'
      | (st', Some err) => (st', Some err)
      end
  end.

(** The state before the first iteration. *)
Definition start : Run := {| seen := ∅; pol := NewPolicy; trace := [] |}.

(** [GeneratePolicy(ctx, opts)] *)
Definition GeneratePolicy (opts : Options) : option Policy * option error :=
  match pinFiles start (Dockerfiles opts) with
  | (st, None) => (Some (pol st), None)
  | (_, Some err) => (None, Some err)
  end.

(** The trace of the run of [GeneratePolicy(ctx, opts)]. *)
Definition GeneratePolicy_trace (opts : Options) : list Event :=
  trace (pinFiles start (Dockerfiles opts)).1.
End GeneratePolicy.

(** The byte ['\n']. *)
Definition newline : string := String (ascii_of_nat 10) EmptyString.

Section WritePolicy.
(** The encoder of [encoding/json]: marshalling of a policy, and the
    re-indentation [appendIndent(dst, src, prefix, indent)]. *)
Variable marshal : Policy → outcome string.
Variable appendIndent : string → string → string → outcome string.

Record Encoder : Type := mkEncoder {
  indentPrefix : string;
  indentValue : string;
}.

(** [json.NewEncoder(w)] and [enc.SetIndent(prefix, indent)] *)
Definition NewEncoder : Encoder := {| indentPrefix := ""; indentValue := "" |}.
Definition SetIndent (enc : Encoder) (prefix indent : string) : Encoder :=
  {| indentPrefix := prefix; indentValue := indent |}.

(** [enc.Encode(v)] on a writer that holds [w]: the bytes held after
    the call, and the error. *)
Definition Encode (enc : Encoder) (w : string) (v : Policy) : string * option error :=
  match marshal v with
  | inl err => (w, Some (foreignError err))
  | inr e =>
      let b := e +:+ newline in
      if negb (String.eqb (indentPrefix enc) "") || negb (String.eqb (indentValue enc) "")
      then
        match appendIndent b (indentPrefix enc) (indentValue enc) with
        | inl err => (w, Some (foreignError err))
        | inr b => (w +:+ b, None)
        end
      else (w +:+ b, None)
  end.

(** [WritePolicy(w, pol)] *)
Definition WritePolicy (w : string) (pol : Policy) : string * option error :=
  let encoder := NewEncoder in
  let encoder := SetIndent encoder "" "  " in
  Encode encoder w pol.
End WritePolicy.

End pin.

(** ** Package [internal/version] *)

Module version.

(** [s[:n]] for [n] within the length of [s]. *)
Fixpoint sliceTo (n : nat) (s : string) : string :=
  match n, s with
  | S n', String c s' => String c (sliceTo n' s')
  | _, _ => EmptyString
  end.

Section Version.
(** The package variables [version] and [commit], set when the program is
    linked. *)
Variables version commit : string.

(** [Version()] *)
Definition Version : string :=
  if negb (String.eqb commit "unknown") && (7 <? String.length commit)%nat
  then version +:+ " (" +:+ sliceTo 7 commit +:+ ")"
  else version.

(** [Commit()] *)
Definition Commit : string := commit.

(** [UserAgent()] *)
Definition UserAgent : string := "container-source-policy/" +:+ version.
End Version.

End version.

(** ** Package [internal/testutil]

    The mock HTTP server.  Its mutex makes each method, and the part of
    the handler that touches the server, one step on the state below; a
    handler answers from the file it read in that step. *)

Module testutil.
Import GoStrings.

(** [mockFile]: a nil [headers] map is the empty map. *)
Record mockFile : Type := mkMockFile {
  content : string;
  headers : gmap string string;
}.

(** [MockHTTPServer], without the [httptest] server it wraps. *)
Record MockHTTPServer : Type := mkMockHTTPServer {
  files : gmap string mockFile;
  requests : list string;
}.

(** What a handler leaves in its [http.ResponseWriter]: the status, the
    header map (one value per canonical key) and the body. *)
Record Response : Type := mkResponse {
  status : nat;
  header : gmap string string;
  body : string;
}.

Section Server.
(** [sha256.Sum256] and [hex.EncodeToString]. *)
Variable Sum256 : string → string.
Variable EncodeToString : string → string.
(** [textproto.CanonicalMIMEHeaderKey], which [Header.Set] and
    [Header.Get] apply to their key. *)
Variable CanonicalMIMEHeaderKey : string → string.
(** The order in which a [range] goes through a map. *)
Variable rangeOrder : gmap string string → list (string * string).
(** The header and the body [http.NotFound] writes. *)
Variable notFoundHeader : gmap string string.
Variable notFoundBody : string.

(** [h.Set(key, value)] and [h.Get(key)] on an [http.Header]. *)
Definition Header_Set (h : gmap string string) (key value : string) : gmap string string :=
  <[CanonicalMIMEHeaderKey key := value]> h.

Definition Header_Get (h : gmap string string) (key : string) : option string :=
  h !! CanonicalMIMEHeaderKey key.

(** [NewMockHTTPServer()] *)
Definition NewMockHTTPServer : MockHTTPServer :=
  {| files := ∅; requests := [] |}.

(** The handler [NewMockHTTPServer] installs, on a request with method
    [method] for the path [path]. *)
Definition handler (ms : MockHTTPServer) (method path : string)
    : MockHTTPServer * Response :=
  let req := method +:+ " " +:+ path in
  let ms' := {| files := files ms; requests := requests ms ++ [req] |} in
  match files ms !! path with
  | None =>
      (ms', {| status := 404; header := notFoundHeader; body := notFoundBody |})
  | Some file =>
      let h := foldl (λ h kv, Header_Set h kv.1 kv.2) ∅ (rangeOrder (headers file)) in
      if String.eqb method "HEAD" then
        let hash := Sum256 (content file) in
        let etag := EncodeToString hash in
        let h := Header_Set h "ETag" etag in
        let h := Header_Set h "Content-Length" (pretty (String.length (content file))) in
        (ms', {| status := 200; header := h; body := "" |})
      else
        let h := Header_Set h "Content-Type" "application/octet-stream" in
        (ms', {| status := 200; header := h; body := content file |})
  end.

(** [ms.AddFileWithHeaders(path, content, headers)] *)
Definition AddFileWithHeaders (ms : MockHTTPServer) (path contentStr : string)
    (hdrs : gmap string string) : MockHTTPServer * string :=
  let hash := Sum256 contentStr in
  let checksum := "sha256:" +:+ EncodeToString hash in
  ({| files := <[path := {| content := contentStr; headers := hdrs |}]> (files ms);
      requests := requests ms |},
   checksum).

(** [ms.AddFile(path, content)] *)
Definition AddFile (ms : MockHTTPServer) (path contentStr : string)
    : MockHTTPServer * string :=
  AddFileWithHeaders ms path contentStr ∅.
End Server.

(** [ms.Requests()]: a copy of the log. *)
Definition Requests (ms : MockHTTPServer) : list string := requests ms.

(** [ms.ResetRequests()] *)
Definition ResetRequests (ms : MockHTTPServer) : MockHTTPServer :=
  {| files := files ms; requests := [] |}.

(** [ms.HasRequest(pattern)] *)
Fixpoint hasRequest (reqs : list string) (pattern : string) : bool :=
  match reqs with
  | [] => false
  | req :: reqs' => if Contains req pattern then true else hasRequest reqs' pattern
  end.

Definition HasRequest (ms : MockHTTPServer) (pattern : string) : bool :=
  hasRequest (requests ms) pattern.

End testutil.

(** ** The vocabulary of the properties *)

Module Spec.
Import GoStrings reference registry dhi dockerfile policy pin.

(** *** Image resolution *)

(** The reference with the implicit default tag. *)
Definition taggedLatest (ref : Named) : Named :=
  {| domain := domain ref; path := path ref;
     tag := Some "latest"; digest := digest ref |}.

(** The reference [GetDigest] goes on with. *)
Definition normalized (ref : Named) : Named :=
  if isTagged ref || isDigested ref then ref else taggedLatest ref.

(** What the registry hands back for a reference: the manifest bytes and
    what the transport reports next to them, when the three transport
    calls succeed. *)
Definition fetched (c : Client) (ref : Named) : option (list Byte.byte * string) :=
  match NewReference c ref with
  | inl _ => None
  | inr imgRef =>
      match NewImageSource c imgRef with
      | inl _ => None
      | inr imgSrc =>
          match GetManifest c imgSrc with
          | inl _ => None
          | inr m => Some m
          end
      end
  end.

(** The manifest bytes alone. *)
Definition manifestBytes (c : Client) (ref : Named) : option (list Byte.byte) :=
  fst <$> fetched c ref.

(** *** Error classification *)

(** The substrings [IsNotFoundOrAuthError] looks for. *)
Definition fallbackMarkers : list string :=
  ["401"; "403"; "404"; "manifest unknown"; "not found"; "unauthorized";
   "authentication required"; "denied"; "does not exist"].

(** The substrings the specification lists. *)
Definition specifiedMarkers : list string :=
  ["401"; "403"; "404"; "manifest unknown"; "name unknown"; "denied";
   "unauthorized"; "does not exist"].

(** A non-nil error whose lower-cased text contains one of the markers. *)
Definition mentionsAny (lower : string → string) (markers : list string)
    (err : option error) : bool :=
  match err with
  | None => false
  | Some e => existsb (Contains (lower (Error e))) markers
  end.

(** *** Hardened-mirror mapping *)

(** Eligibility as the specification words it: the canonical public
    default registry, a single-segment name under [library/], and not
    the hardened registry already. *)
Definition specifiedEligible (ref : Named) : bool :=
  String.eqb (Domain ref) DockerHubDomain
  && HasPrefix (Path ref) LibraryPrefix
  && negb (Contains (TrimPrefix (Path ref) LibraryPrefix) "/")
  && negb (String.eqb (Domain ref) Registry).

(** The hardened-registry reference of the same image name and tag. *)
Definition hardened (ref : Named) : Named :=
  {| domain := Registry;
     path := TrimPrefix (Path ref) LibraryPrefix;
     tag := tag ref;
     digest := None |}.

(** *** Policy assembly *)

(** The references of the input files, files in the order supplied and
    references in extraction order. *)
Definition extracted (ParseFile : string → outcome (list ImageRef))
    (opts : Options) : list ImageRef :=
  concat (map (λ dockerfilePath,
                 match ParseFile dockerfilePath with
                 | inr refs => refs
                 | inl _ => []
                 end) (Dockerfiles opts)).

(** The first occurrence of a reference text: its position and the
    reference found there. *)
Definition firstOccurrence (original : string) (refs : list ImageRef)
    : option (nat * ImageRef) :=
  list_find (λ r, Original r = original) refs.

(** The rules of a document that select a reference text. *)
Definition selects (original : string) (rule : Rule) : Prop :=
  selectorIdentifier rule = imageScheme +:+ original.

#[export] Instance selects_dec original rule : Decision (selects original rule).
Proof. unfold selects. apply _. Defined.

Definition rulesFor (original : string) (doc : Policy) : list Rule :=
  filter (selects original) (Rules doc).

(** The bytes of the serialized document of a run, when the run and the
    serialization succeed. *)
Definition serialized (result : string * option error) : option string :=
  match result with
  | (out, None) => Some out
  | (_, Some _) => None
  end.

(** The bytes a run leaves in the writer: the serialization of the
    document it generated, when there is one. *)
Definition written (generated : option Policy * option error)
    (write : Policy → string * option error) : option string :=
  match generated with
  | (Some doc, None) => serialized (write doc)
  | _ => None
  end.

(** *** Runs of the assembler *)

(** The first reference of each text, in order of appearance: the
    references the assembler does not skip as duplicates. *)
Definition firsts (refs : list ImageRef) : list ImageRef :=
  foldl (λ acc r, if decide (Original r ∈ Original <$> acc) then acc else acc ++ [r])
        [] refs.

Definition unpinned (r : ImageRef) : Prop := isDigested (Ref r) = false.

#[export] Instance unpinned_dec r : Decision (unpinned r).
Proof. unfold unpinned. apply _. Defined.

(** The references a trace asked the registry about, and the rules it
    appended with the reference each was appended for. *)
Definition callsOf (tr : list Event) : list ImageRef :=
  omap (λ ev, match ev with GetDigestCall r => Some r | _ => None end) tr.

Definition pinsOf (tr : list Event) : list (ImageRef * string) :=
  omap (λ ev, match ev with AddPinRuleCall r pinned => Some (r, pinned) | _ => None end) tr.

Definition ruleOf (pin : ImageRef * string) : Rule :=
  {| selectorIdentifier := imageScheme +:+ Original pin.1;
     action := CONVERT;
     updatesIdentifier := imageScheme +:+ pin.2;
     updatesAttrs := [] |}.

(** What an event is about: the file of a parse, the reference text of a
    resolution or of a rule. *)
Definition subject (ev : Event) : string :=
  match ev with
  | ParseFileCall dockerfilePath => dockerfilePath
  | GetDigestCall r => Original r
  | AddPinRuleCall r _ => Original r
  end.

Section Runs.
Variable ParseFile : string → outcome (list ImageRef).
Variable manifest_Digest : list Byte.byte → outcome Digest.
Variable client : Client.

(** A call of the trace that failed: a file that does not parse, a
    reference whose digest resolution returns an error. *)
Definition failedCall (ev : Event) : bool :=
  match ev with
  | ParseFileCall dockerfilePath =>
      match ParseFile dockerfilePath with inl _ => true | inr _ => false end
  | GetDigestCall r =>
      match (GetDigest manifest_Digest client (Ref r)).2 with
      | Some _ => true
      | None => false
      end
  | AddPinRuleCall _ _ => false
  end.

(** The error [GeneratePolicy] makes of a failed call. *)
Definition reports (err : error) (ev : Event) : Prop :=
  match ev with
  | ParseFileCall dockerfilePath =>
      ∃ cause, ParseFile dockerfilePath = inl cause ∧
        err = wrapError ("failed to parse " +:+ dockerfilePath +:+ ": " +:+ cause)
                        (foreignError cause)
  | GetDigestCall r =>
      ∃ cause, (GetDigest manifest_Digest client (Ref r)).2 = Some cause ∧
        err = wrapError ("failed to get digest for " +:+ Original r
                         +:+ ": " +:+ Error cause) cause
  | AddPinRuleCall _ _ => False
  end.

(** The state of a run that has gone through the references [seenRefs]
    without an error. *)
Record Inv (st : Run) (seenRefs : list ImageRef) : Prop := mkInv {
  inv_seen : ∀ o, seenAt (seen st) o = true ↔ o ∈ Original <$> seenRefs;
  inv_rules : Rules (pol st) = ruleOf <$> pinsOf (trace st);
  inv_pins : (pinsOf (trace st)).*1 = filter unpinned (firsts seenRefs);
  inv_calls : callsOf (trace st) = filter unpinned (firsts seenRefs);
  inv_ok : ∀ ev, ev ∈ trace st → failedCall ev = false;
}.

(** The state of a run that stopped on the error [err]. *)
Record Stopped (st : Run) (err : error) : Prop := mkStopped {
  stopped_calls : ∀ r, r ∈ callsOf (trace st) → unpinned r;
  stopped_pins : ∀ pin, pin ∈ pinsOf (trace st) → unpinned pin.1;
  stopped_reports : ∀ ev, ev ∈ trace st → failedCall ev = true → reports err ev;
  stopped_last : ∀ ev, ev ∈ trace st → failedCall ev = true →
                 ∃ tr, trace st = tr ++ [ev];
}.
End Runs.

End Spec.

(** ** The vocabulary of further properties *)

Module Observe.
Import GoStrings reference registry dhi dockerfile policy pin Spec.

(** *** Registry errors *)

(** The substrings [CheckAuth] takes for a missing image, and those it
    takes for a failed authentication. *)
Definition notFoundMarkers : list string :=
  ["404"; "not found"; "manifest unknown"; "name unknown"; "unknown name"].

Definition authMarkers : list string :=
  ["unauthorized"; "authentication required"; "denied"; "401"; "403"].

(** A text that contains one of the markers. *)
Definition containsAny (text : string) (markers : list string) : bool :=
  existsb (Contains text) markers.

(** The error [CheckAuth] makes of a failed authentication. *)
Definition loginHint (registry : string) : error :=
  foreignError ("authentication failed for " +:+ registry
                +:+ ": run 'docker login " +:+ registry +:+ "' first").

(** The error [CheckAuth] makes of any other failure to open the image
    source. *)
Definition connectFailure (registry cause : string) : error :=
  wrapError ("failed to connect to " +:+ registry +:+ ": " +:+ cause)
            (foreignError cause).

(** *** Runs of the assembler *)

(** The files a trace parsed. *)
Definition parsesOf (tr : list Event) : list string :=
  omap (λ ev, match ev with ParseFileCall dockerfilePath => Some dockerfilePath
                       | _ => None end) tr.

(** The parsed reference with a digest next to what it has. *)
Definition withDigest (ref : Named) (d : Digest) : Named :=
  {| domain := domain ref; path := path ref; tag := tag ref; digest := Some d |}.

Section Pins.
Variable manifest_Digest : list Byte.byte → outcome Digest.
Variable digest_Parse : string → outcome Digest.
Variable client : Client.

(** A rule of the trace pins its reference to the digest the registry
    returned for it. *)
Definition pinnedBy (ev : Event) : Prop :=
  match ev with
  | AddPinRuleCall r pinned =>
      ∃ digestStr d,
        GetDigest manifest_Digest client (Ref r) = (digestStr, None) ∧
        digest_Parse digestStr = inr d ∧
        pinned = Named_String (withDigest (Ref r) d)
  | _ => True
  end.
End Pins.

(** The state of a run asks the registry once per reference text, and
    only about texts it has marked as seen. *)
Record OncePerText (st : Run) : Prop := mkOncePerText {
  once_nodup : NoDup (Original <$> callsOf (trace st));
  once_seen : ∀ r, r ∈ callsOf (trace st) → seenAt (seen st) (Original r) = true;
}.

(** *** Hardened-mirror mapping *)

(** The reference without its digest. *)
Definition withoutDigest (ref : Named) : Named :=
  {| domain := domain ref; path := path ref; tag := tag ref; digest := None |}.

(** What [MapToDHI] returns for what the parser returns. *)
Definition parsed (result : outcome Named) : option Named * option error :=
  match result with
  | inr named => (Some named, None)
  | inl err => (None, Some (foreignError err))
  end.

End Observe.

(** ** A small concrete environment

    One registry, a few build files and stand-ins for the library
    functions, on which the definitions above can be run. *)

Module Fixture.
Import GoStrings reference registry dhi dockerfile policy pin.

(** [s] cut at the first byte [c]. *)
Fixpoint cut (c : ascii) (s : string) : option (string * string) :=
  match s with
  | EmptyString => None
  | String d s' =>
      if Ascii.eqb d c then Some (EmptyString, s')
      else match cut c s' with
           | Some (before, after) => Some (String d before, after)
           | None => None
           end
  end.

(** A reader of familiar names that splits like
    [reference.ParseNormalizedNamed] and checks no grammar. *)
Definition parseNamed (s : string) : outcome Named :=
  let '(dom, remainder) :=
    match cut "/" s with
    | Some (d, rest) =>
        if Contains d "." || Contains d ":" || String.eqb d "localhost"
        then (d, rest) else ("docker.io", s)
    | None => ("docker.io", s)
    end in
  let dom := if String.eqb dom "index.docker.io" then "docker.io" else dom in
  let remainder :=
    if String.eqb dom "docker.io" && negb (Contains remainder "/")
    then "library/" +:+ remainder else remainder in
  let '(nameTag, dig) :=
    match cut "@" remainder with
    | Some (before, after) => (before, Some after)
    | None => (remainder, None)
    end in
  let '(p, t) :=
    match cut ":" nameTag with
    | Some (before, after) => (before, Some after)
    | None => (nameTag, None)
    end in
  if String.eqb p "" then inl "invalid reference format"
  else inr {| domain := dom; path := p; tag := t; digest := dig |}.

Definition bytesOf (s : string) : list Byte.byte := String.list_byte_of_string s.

(** A registry that serves two official images and nothing else. *)
Definition serve (report : string) (ref : Named)
    : outcome (list Byte.byte * string) :=
  if String.eqb (path ref) "library/alpine"
  then inr (bytesOf "{alpine manifest}", report)
  else if String.eqb (path ref) "library/golang"
  then inr (bytesOf "{golang manifest}", report)
  else inl "manifest unknown".

Definition hub (report : string) : Client :=
  {| ImageReference := Named;
     ImageSource := Named;
     NewReference := λ ref,
       if isTagged ref && isDigested ref
       then inl "Docker references with both a tag and digest are currently not supported"
       else if negb (isTagged ref) && negb (isDigested ref)
       then inl "Docker reference has neither a tag nor a digest"
       else inr ref;
     NewImageSource := λ ref,
       if String.eqb (domain ref) "docker.io" then inr ref
       else inl "pinging container registry: connection refused";
     GetManifest := serve report |}.

(** A stand-in for the hash: the digest is a function of the bytes. *)
Definition digestOf (b : list Byte.byte) : outcome Digest :=
  inr ("sha256:" +:+ String.string_of_list_byte b).

Definition parseDigest (s : string) : outcome Digest :=
  if HasPrefix s "sha256:" then inr s else inl "invalid checksum digest format".

Definition digestShape (s : string) : bool := HasPrefix s "sha256:".

Definition alpine : Named :=
  {| domain := "docker.io"; path := "library/alpine"; tag := Some "3.18"; digest := None |}.
Definition golang : Named :=
  {| domain := "docker.io"; path := "library/golang"; tag := None; digest := None |}.
Definition alpinePinned : Named :=
  {| domain := "docker.io"; path := "library/alpine"; tag := None;
     digest := Some "sha256:0123" |}.
Definition tool : Named :=
  {| domain := "ghcr.io"; path := "acme/tool"; tag := Some "1"; digest := None |}.
Definition nested : Named :=
  {| domain := "docker.io"; path := "library/foo/bar"; tag := Some "1.0"; digest := None |}.

(** The build files. *)
Definition files (dockerfilePath : string) : outcome (list ImageRef) :=
  if String.eqb dockerfilePath "Dockerfile"
  then inr [ {| Original := "alpine:3.18"; Ref := alpine |};
             {| Original := "golang"; Ref := golang |};
             {| Original := "alpine:3.18"; Ref := alpine |} ]
  else if String.eqb dockerfilePath "Dockerfile.pinned"
  then inr [ {| Original := "alpine@sha256:0123"; Ref := alpinePinned |};
             {| Original := "alpine@sha256:0123"; Ref := alpinePinned |} ]
  else if String.eqb dockerfilePath "Dockerfile.ci"
  then inr [ {| Original := "golang"; Ref := golang |};
             {| Original := "ghcr.io/acme/tool:1"; Ref := tool |} ]
  else inl "no such file or directory".

(** Stand-ins for the JSON encoder. *)
Definition marshalRules (doc : Policy) : outcome string :=
  inr (String.concat ","
         (map (λ r, selectorIdentifier r +:+ ">" +:+ updatesIdentifier r) (Rules doc))).

Definition indentWith (src prefix indent : string) : outcome string :=
  inr (prefix +:+ indent +:+ src).

Definition generate (report : string) (paths : list string) :=
  GeneratePolicy files digestOf parseDigest digestShape (hub report)
    {| Dockerfiles := paths |}.

Definition traceOf (report : string) (paths : list string) :=
  GeneratePolicy_trace files digestOf parseDigest digestShape (hub report)
    {| Dockerfiles := paths |}.

(** The references as written in the build files. *)
Definition alpineRef : ImageRef := {| Original := "alpine:3.18"; Ref := alpine |}.
Definition golangRef : ImageRef := {| Original := "golang"; Ref := golang |}.
Definition pinnedRef : ImageRef :=
  {| Original := "alpine@sha256:0123"; Ref := alpinePinned |}.
Definition toolRef : ImageRef := {| Original := "ghcr.io/acme/tool:1"; Ref := tool |}.

(** The rules of the two images the registry serves. *)
Definition alpineRule : Rule :=
  {| selectorIdentifier := "docker-image://alpine:3.18";
     action := CONVERT;
     updatesIdentifier :=
       "docker-image://docker.io/library/alpine:3.18@sha256:{alpine manifest}";
     updatesAttrs := [] |}.
Definition golangRule : Rule :=
  {| selectorIdentifier := "docker-image://golang";
     action := CONVERT;
     updatesIdentifier :=
       "docker-image://docker.io/library/golang@sha256:{golang manifest}";
     updatesAttrs := [] |}.

End Fixture.

(** ** Further concrete cases *)

Module Scenario.
Import GoStrings reference registry dhi dockerfile policy pin.

(** A reference whose tag holds the digits of a status code. *)
Definition odd : Named :=
  {| domain := "ghcr.io"; path := "acme/tool"; tag := Some "v1.404"; digest := None |}.

(** A registry whose sessions fail with the given text. *)
Definition failing (text : string) : Client :=
  {| ImageReference := Named;
     ImageSource := Named;
     NewReference := λ ref, inr ref;
     NewImageSource := λ _, inl text;
     GetManifest := λ _, inl text |}.

End Scenario.

(** * Properties *)

Import GoStrings reference registry dhi dockerfile policy pin Spec Observe.

(** ** Strings *)

Lemma append_cons (c : ascii) (a b : string) :
  String c a +:+ b = String c (a +:+ b).
Proof. reflexivity. Qed.

Lemma append_nil_r (s : string) : s +:+ "" = s.
Proof. induction s as [|c s IH]; [done|by rewrite append_cons, IH]. Qed.

Lemma append_assoc (a b c : string) : (a +:+ b) +:+ c = a +:+ b +:+ c.
Proof. induction a as [|x a IH]; [done|by rewrite !append_cons, IH]. Qed.

Lemma append_inj_l (p a b : string) : p +:+ a = p +:+ b → a = b.
Proof.
  induction p as [|c p IH]; [done|].
  rewrite !append_cons. intros H. injection H. auto.
Qed.

Lemma HasPrefix_app (p rest : string) : HasPrefix (p +:+ rest) p = true.
Proof.
  induction p as [|c p IH]; simpl; [done|].
  by rewrite Ascii.eqb_refl, IH.
Qed.

Lemma HasPrefix_inv (s p : string) :
  HasPrefix s p = true → ∃ rest, s = p +:+ rest.
Proof.
  revert s; induction p as [|c p IH]; intros s H; simpl in *.
  - by exists s.
  - destruct s as [|d s]; [done|].
    apply andb_true_iff in H as [Hc Hp].
    apply Ascii.eqb_eq in Hc as ->.
    destruct (IH _ Hp) as [rest ->]. by exists rest.
Qed.

Lemma skip_app (p rest : string) : skip (String.length p) (p +:+ rest) = rest.
Proof. induction p as [|c p IH]; simpl; [by destruct rest|done]. Qed.

Lemma TrimPrefix_app (p rest : string) : TrimPrefix (p +:+ rest) p = rest.
Proof. unfold TrimPrefix. by rewrite HasPrefix_app, skip_app. Qed.

Lemma HasPrefix_TrimPrefix (s p : string) :
  HasPrefix s p = true → s = p +:+ TrimPrefix s p.
Proof.
  intros H. destruct (HasPrefix_inv _ _ H) as [rest ->].
  by rewrite TrimPrefix_app.
Qed.

Lemma Contains_intro (a sub b : string) :
  Contains (a +:+ sub +:+ b) sub = true.
Proof.
  induction a as [|c a IH]; simpl.
  - destruct sub as [|c sub]; simpl; [by destruct b|].
    by rewrite Ascii.eqb_refl, HasPrefix_app.
  - rewrite IH. by rewrite orb_true_r.
Qed.

Lemma Contains_elim (s sub : string) :
  Contains s sub = true → ∃ a b, s = a +:+ sub +:+ b.
Proof.
  induction s as [|c s IH]; simpl; intros H.
  - rewrite orb_false_r in H.
    destruct (HasPrefix_inv _ _ H) as [rest ->]. by exists "", rest.
  - apply orb_true_iff in H as [H|H].
    + destruct (HasPrefix_inv _ _ H) as [rest ->]. by exists "", rest.
    + destruct (IH H) as (a & b & ->). by exists (String c a), b.
Qed.

(** ** Error classification *)

Section Classifier.
Variable MapUnicodeToLower : string → string.

Abbreviation lower := (ToLower MapUnicodeToLower).

(** The classifier is the disjunction of its nine substring tests. *)
Lemma IsNotFoundOrAuthError_mentionsAny (err : option error) :
  IsNotFoundOrAuthError MapUnicodeToLower err = mentionsAny lower fallbackMarkers err.
Proof.
  destruct err as [e|]; [|done].
  unfold IsNotFoundOrAuthError, mentionsAny, fallbackMarkers, existsb.
  generalize (lower (Error e)); intros t.
  repeat match goal with
         | |- context [Contains t ?m] => destruct (Contains t m); simpl; try done
         end.
Qed.

Lemma mentionsAny_cons (m : string) (ms : list string) (e : error) :
  mentionsAny lower (m :: ms) (Some e)
  = Contains (lower (Error e)) m || mentionsAny lower ms (Some e).
Proof. done. Qed.

(** C8 (amended).  [IsNotFoundOrAuthError] is false on a nil error; it is
    true on every error whose lower-cased text contains 401, 403, 404,
    "manifest unknown", "not found", "unauthorized", "authentication
    required", "denied" or "does not exist"; and it is false on every
    error whose lower-cased text contains none of these nine and not
    "name unknown" either. *)
Theorem IsNotFoundOrAuthError_triggers (err : option error) :
  (err = None → IsNotFoundOrAuthError MapUnicodeToLower err = false) ∧
  (mentionsAny lower fallbackMarkers err = true →
     IsNotFoundOrAuthError MapUnicodeToLower err = true) ∧
  (mentionsAny lower ("name unknown" :: fallbackMarkers) err = false →
     IsNotFoundOrAuthError MapUnicodeToLower err = false).
Proof.
  rewrite IsNotFoundOrAuthError_mentionsAny.
  split; [by intros ->|]. split; [done|].
  destruct err as [e|]; [|done].
  rewrite mentionsAny_cons. intros H.
  by apply orb_false_iff in H as [_ H].
Qed.
End Classifier.

(** The theorem at a nil error, at an error that carries a status code and
    at an error that carries no marker. *)
Lemma IsNotFoundOrAuthError_triggers_witness :
  IsNotFoundOrAuthError (λ s, s) None = false ∧
  IsNotFoundOrAuthError (λ s, s) (Some (foreignError "unexpected HTTP status: 404 Not Found")) = true ∧
  IsNotFoundOrAuthError (λ s, s) (Some (foreignError "connection reset by peer")) = false.
Proof.
  split; [|split].
  - apply (proj1 (IsNotFoundOrAuthError_triggers (λ s, s) None)). reflexivity.
  - apply (proj1 (proj2 (IsNotFoundOrAuthError_triggers (λ s, s)
             (Some (foreignError "unexpected HTTP status: 404 Not Found"))))).
    reflexivity.
  - apply (proj2 (proj2 (IsNotFoundOrAuthError_triggers (λ s, s)
             (Some (foreignError "connection reset by peer"))))).
    reflexivity.
Defined.

(** C8 as worded fails: an error that says "not found", with no status
    code and none of the listed markers, is classified as a fallback
    trigger. *)
Lemma IsNotFoundOrAuthError_not_found_counterexample :
  mentionsAny (ToLower (λ s, s)) specifiedMarkers
    (Some (foreignError "repository Not Found")) = false ∧
  IsNotFoundOrAuthError (λ s, s) (Some (foreignError "repository Not Found")) = true.
Proof. split; reflexivity. Qed.

(** An error that only says "name unknown" is not a trigger of this
    classifier. *)
Lemma IsNotFoundOrAuthError_name_unknown :
  IsNotFoundOrAuthError (λ s, s)
    (Some (foreignError "name unknown: repository name not known to registry")) = false.
Proof. reflexivity. Qed.

(** ** Hardened-mirror mapping *)

Lemma CanMapToDHI_spec (ref : Named) :
  CanMapToDHI ref = true ↔
  Domain ref = DockerHubDomain ∧ HasPrefix (Path ref) LibraryPrefix = true.
Proof.
  unfold CanMapToDHI.
  destruct (String.eqb (Domain ref) DockerHubDomain) eqn:E; simpl.
  - apply String.eqb_eq in E. split; [done|]. by intros [_ ?].
  - apply String.eqb_neq in E. split; [done|]. by intros [? _].
Qed.

(** The string [MapToDHI] hands to the parser is the rendering of the
    hardened reference. *)
Lemma Named_String_hardened (ref : Named) :
  Named_String (hardened ref)
  = match tag ref with
    | Some t => (Registry +:+ "/" +:+ TrimPrefix (Path ref) LibraryPrefix) +:+ ":" +:+ t
    | None => Registry +:+ "/" +:+ TrimPrefix (Path ref) LibraryPrefix
    end.
Proof.
  unfold Named_String, hardened, Name. simpl.
  destruct (tag ref) as [t|]; rewrite ?append_nil_r; done.
Qed.

Section Mapping.
Variable ParseNormalizedNamed : string → outcome Named.

Lemma MapToDHI_eligible (ref : Named) :
  CanMapToDHI ref = true →
  MapToDHI ParseNormalizedNamed ref
  = match ParseNormalizedNamed (Named_String (hardened ref)) with
    | inr named => (Some named, None)
    | inl err => (None, Some (foreignError err))
    end.
Proof.
  intros H. unfold MapToDHI. rewrite H, Named_String_hardened. simpl.
  by destruct (tag ref).
Qed.

Lemma MapToDHI_not_eligible (ref : Named) :
  CanMapToDHI ref = false →
  MapToDHI ParseNormalizedNamed ref = (None, Some ErrNotEligible).
Proof. intros H. unfold MapToDHI. by rewrite H. Qed.

(** C7 (amended).  [MapToDHI] returns [ErrNotEligible] exactly when the
    domain of the reference is not docker.io or its path does not start
    with library/; how many segments follow the prefix is not looked at.
    When the reference is eligible, [MapToDHI] returns what the library
    parser makes of the rendering of the dhi.io reference of the same
    remaining path and tag; when the parser reads that rendering back as
    that reference, [MapToDHI] returns it, with a nil error. *)
Theorem MapToDHI_eligibility (ref : Named) :
  (MapToDHI ParseNormalizedNamed ref = (None, Some ErrNotEligible) ↔
     Domain ref ≠ DockerHubDomain ∨ HasPrefix (Path ref) LibraryPrefix = false) ∧
  (Domain ref = DockerHubDomain →
   HasPrefix (Path ref) LibraryPrefix = true →
   MapToDHI ParseNormalizedNamed ref
   = match ParseNormalizedNamed (Named_String (hardened ref)) with
     | inr named => (Some named, None)
     | inl err => (None, Some (foreignError err))
     end) ∧
  (Domain ref = DockerHubDomain →
   HasPrefix (Path ref) LibraryPrefix = true →
   ParseNormalizedNamed (Named_String (hardened ref)) = inr (hardened ref) →
   MapToDHI ParseNormalizedNamed ref = (Some (hardened ref), None)).
Proof.
  split; [|split].
  - destruct (CanMapToDHI ref) eqn:E.
    + pose proof (proj1 (CanMapToDHI_spec ref) E) as [Hd Hp].
      rewrite (MapToDHI_eligible _ E). split.
      * by destruct (ParseNormalizedNamed _).
      * intros [?|?]; [done|congruence].
    + rewrite (MapToDHI_not_eligible _ E). split; [|done]. intros _.
      destruct (decide (Domain ref = DockerHubDomain)) as [Hd|]; [|by left].
      right. destruct (HasPrefix (Path ref) LibraryPrefix) eqn:Hp; [|done].
      rewrite (proj2 (CanMapToDHI_spec ref)) in E; done.
  - intros Hd Hp. apply MapToDHI_eligible. by apply CanMapToDHI_spec.
  - intros Hd Hp Hparse.
    rewrite MapToDHI_eligible by (by apply CanMapToDHI_spec).
    by rewrite Hparse.
Qed.

(** What the library parser does with a name that starts with the
    hardened registry: the first component holds a dot, so it is the
    domain of every reference read from such a name. *)
Hypothesis ParseNormalizedNamed_domain : ∀ (rest : string) (named : Named),
  ParseNormalizedNamed (Registry +:+ "/" +:+ rest) = inr named →
  Domain named = Registry.

(** C10.  A reference returned by [MapToDHI] is on dhi.io, so it is not
    eligible itself and mapping it again gives [ErrNotEligible]. *)
Theorem MapToDHI_never_twice (ref mapped : Named) :
  CanMapToDHI ref = true →
  MapToDHI ParseNormalizedNamed ref = (Some mapped, None) →
  Domain mapped = Registry ∧
  CanMapToDHI mapped = false ∧
  MapToDHI ParseNormalizedNamed mapped = (None, Some ErrNotEligible).
Proof.
  intros Hcan Hmap.
  assert (Domain mapped = Registry) as Hd.
  { rewrite (MapToDHI_eligible _ Hcan), Named_String_hardened in Hmap.
    destruct (tag ref) as [t|].
    - rewrite !append_assoc in Hmap.
      destruct (ParseNormalizedNamed _) as [|named] eqn:E; [done|].
      injection Hmap as ->. by eapply ParseNormalizedNamed_domain.
    - destruct (ParseNormalizedNamed _) as [|named] eqn:E; [done|].
      injection Hmap as ->. by eapply ParseNormalizedNamed_domain. }
  assert (CanMapToDHI mapped = false) as Hno.
  { unfold CanMapToDHI. by rewrite Hd. }
  split; [done|]. split; [done|]. by apply MapToDHI_not_eligible.
Qed.
End Mapping.

Lemma parseNamed_domain (rest : string) (named : Named) :
  Fixture.parseNamed (Registry +:+ "/" +:+ rest) = inr named →
  Domain named = Registry.
Proof.
  unfold Fixture.parseNamed. simpl. change ("" +:+ rest) with rest.
  destruct (Fixture.cut "@" rest) as [[nameTag dig]|]; simpl.
  - destruct (Fixture.cut ":" nameTag) as [[p t]|]; simpl;
      (destruct (String.eqb _ ""); [done|]); by intros [= <-].
  - destruct (Fixture.cut ":" rest) as [[p t]|]; simpl;
      (destruct (String.eqb _ ""); [done|]); by intros [= <-].
Qed.

(** The theorem at docker.io/library/alpine:3.18 (eligible) and at
    ghcr.io/acme/tool:1 (not eligible). *)
Lemma MapToDHI_eligibility_witness :
  MapToDHI Fixture.parseNamed Fixture.alpine
  = (Some {| domain := "dhi.io"; path := "alpine"; tag := Some "3.18"; digest := None |}, None) ∧
  MapToDHI Fixture.parseNamed Fixture.tool = (None, Some ErrNotEligible).
Proof.
  split.
  - apply (proj2 (proj2 (MapToDHI_eligibility Fixture.parseNamed Fixture.alpine)));
      reflexivity.
  - apply (proj2 (proj1 (MapToDHI_eligibility Fixture.parseNamed Fixture.tool))).
    left. vm_compute. discriminate.
Defined.

(** C7 as worded fails: docker.io/library/foo/bar:1.0 has two segments
    after library/, so the wording makes it not eligible, yet [MapToDHI]
    maps it to dhi.io/foo/bar:1.0. *)
Lemma MapToDHI_nested_counterexample :
  specifiedEligible Fixture.nested = false ∧
  MapToDHI Fixture.parseNamed Fixture.nested
  = (Some {| domain := "dhi.io"; path := "foo/bar"; tag := Some "1.0"; digest := None |}, None).
Proof. split; reflexivity. Qed.

(** The absence of [ErrNotEligible] at that reference does not depend on
    the parser. *)
Lemma MapToDHI_nested_any_parser (P : string → outcome Named) :
  MapToDHI P Fixture.nested ≠ (None, Some ErrNotEligible).
Proof.
  rewrite MapToDHI_eligible by reflexivity.
  by destruct (P _).
Qed.

(** The theorem at docker.io/library/alpine:3.18 and its image. *)
Lemma MapToDHI_never_twice_witness :
  Domain {| domain := "dhi.io"; path := "alpine"; tag := Some "3.18"; digest := None |} = Registry ∧
  CanMapToDHI {| domain := "dhi.io"; path := "alpine"; tag := Some "3.18"; digest := None |} = false ∧
  MapToDHI Fixture.parseNamed
    {| domain := "dhi.io"; path := "alpine"; tag := Some "3.18"; digest := None |}
  = (None, Some ErrNotEligible).
Proof.
  apply (MapToDHI_never_twice Fixture.parseNamed parseNamed_domain Fixture.alpine);
    reflexivity.
Defined.

(** ** Image resolution *)

Lemma defaultTagged_normalized (ref : Named) :
  defaultTagged ref = inr (normalized ref).
Proof.
  unfold defaultTagged, normalized.
  destruct (isTagged ref), (isDigested ref); done.
Qed.

Lemma normalized_idem (ref : Named) : normalized (normalized ref) = normalized ref.
Proof.
  unfold normalized.
  destruct (isTagged ref || isDigested ref) eqn:E; [by rewrite E|done].
Qed.

Section Resolution.
Variable manifest_Digest : list Byte.byte → outcome Digest.

Lemma GetDigest_resolve (c : Client) (ref : Named) :
  GetDigest manifest_Digest c ref = resolve manifest_Digest c (normalized ref).
Proof. unfold GetDigest. by rewrite defaultTagged_normalized. Qed.

(** C6.  A reference with neither a tag nor a digest is resolved as the
    same reference tagged "latest", and gets the digest that reference
    gets; a reference with a tag or a digest is resolved as it is. *)
Theorem GetDigest_default_tag (c : Client) (ref : Named) :
  (isTagged ref = false → isDigested ref = false →
     GetDigest manifest_Digest c ref = resolve manifest_Digest c (taggedLatest ref) ∧
     GetDigest manifest_Digest c ref = GetDigest manifest_Digest c (taggedLatest ref) ∧
     tag (taggedLatest ref) = Some "latest") ∧
  (isTagged ref = true ∨ isDigested ref = true →
     GetDigest manifest_Digest c ref = resolve manifest_Digest c ref).
Proof.
  rewrite !GetDigest_resolve. split.
  - intros Ht Hd. unfold normalized at 1 2. rewrite Ht, Hd. simpl.
    split; [done|]. split; [|done].
    by replace (normalized (taggedLatest ref)) with (taggedLatest ref).
  - intros H. unfold normalized.
    by replace (isTagged ref || isDigested ref) with true
      by (by destruct H as [-> | ->]; rewrite ?orb_true_r).
Qed.

(** The digest is a function of the manifest bytes. *)
Lemma resolve_fetched (c : Client) (ref : Named) (b : list Byte.byte) (report : string) :
  fetched c ref = Some (b, report) →
  resolve manifest_Digest c ref
  = match manifest_Digest b with
    | inr digest => (digest, None)
    | inl err =>
        ("", Some (wrapError ("failed to compute manifest digest for "
                              +:+ Named_String ref +:+ ": " +:+ err)
                             (foreignError err)))
    end.
Proof.
  unfold fetched, resolve.
  destruct (NewReference c ref) as [|imgRef]; [done|].
  destruct (NewImageSource c imgRef) as [|imgSrc]; [done|].
  destruct (GetManifest c imgSrc) as [|[b' report']]; [done|].
  by intros [= -> ->].
Qed.

Lemma resolve_not_fetched (c : Client) (ref : Named) :
  fetched c ref = None → (resolve manifest_Digest c ref).2 ≠ None.
Proof.
  unfold fetched, resolve.
  destruct (NewReference c ref) as [|imgRef]; [done|].
  destruct (NewImageSource c imgRef) as [|imgSrc]; [done|].
  by destruct (GetManifest c imgSrc) as [|[b' report']].
Qed.

(** C5.  When two registries hand back the same manifest bytes for a
    reference, [GetDigest] returns the same result against both, whatever
    else each transport reports; the result is [manifest.Digest] of those
    bytes. *)
Theorem GetDigest_from_manifest_bytes (c1 c2 : Client) (ref : Named)
    (b : list Byte.byte) (report1 report2 : string) :
  fetched c1 (normalized ref) = Some (b, report1) →
  fetched c2 (normalized ref) = Some (b, report2) →
  GetDigest manifest_Digest c1 ref = GetDigest manifest_Digest c2 ref ∧
  ∀ digest, manifest_Digest b = inr digest →
            GetDigest manifest_Digest c1 ref = (digest, None).
Proof.
  intros H1 H2. rewrite !GetDigest_resolve.
  rewrite (resolve_fetched _ _ _ _ H1), (resolve_fetched _ _ _ _ H2).
  split; [done|]. by intros digest ->.
Qed.
End Resolution.

(** The theorem at the untagged docker.io/library/golang and at the tagged
    docker.io/library/alpine:3.18. *)
Lemma GetDigest_default_tag_witness :
  GetDigest Fixture.digestOf (Fixture.hub "") Fixture.golang
  = GetDigest Fixture.digestOf (Fixture.hub "")
      {| domain := "docker.io"; path := "library/golang";
         tag := Some "latest"; digest := None |} ∧
  GetDigest Fixture.digestOf (Fixture.hub "") Fixture.alpine
  = resolve Fixture.digestOf (Fixture.hub "") Fixture.alpine.
Proof.
  split.
  - apply (proj1 (GetDigest_default_tag Fixture.digestOf (Fixture.hub "") Fixture.golang));
      reflexivity.
  - apply (proj2 (GetDigest_default_tag Fixture.digestOf (Fixture.hub "") Fixture.alpine)).
    left. reflexivity.
Defined.

(** The theorem at two registries that serve the same bytes for
    docker.io/library/golang and report different digests. *)
Lemma GetDigest_from_manifest_bytes_witness :
  GetDigest Fixture.digestOf (Fixture.hub "sha256:aaaa") Fixture.golang
  = GetDigest Fixture.digestOf (Fixture.hub "sha256:bbbb") Fixture.golang.
Proof.
  apply (GetDigest_from_manifest_bytes Fixture.digestOf
           (Fixture.hub "sha256:aaaa") (Fixture.hub "sha256:bbbb") Fixture.golang
           (Fixture.bytesOf "{golang manifest}") "sha256:aaaa" "sha256:bbbb");
    reflexivity.
Defined.

(** ** First occurrences *)

Lemma firsts_snoc_kept (l : list ImageRef) (r : ImageRef) :
  firsts (l ++ [r])
  = if decide (Original r ∈ Original <$> firsts l) then firsts l else firsts l ++ [r].
Proof. unfold firsts. by rewrite foldl_app. Qed.

Lemma firsts_originals (l : list ImageRef) (o : string) :
  o ∈ Original <$> firsts l ↔ o ∈ Original <$> l.
Proof.
  induction l as [|r l IH] using rev_ind; [done|].
  rewrite firsts_snoc_kept. case_decide as Hin.
  - rewrite fmap_app, elem_of_app, IH. split; [by left|].
    intros [?|Ho]; [done|].
    apply list_elem_of_singleton in Ho as ->. by apply IH.
  - by rewrite !fmap_app, !elem_of_app, IH.
Qed.

Lemma firsts_snoc (l : list ImageRef) (r : ImageRef) :
  firsts (l ++ [r])
  = if decide (Original r ∈ Original <$> l) then firsts l else firsts l ++ [r].
Proof.
  rewrite firsts_snoc_kept.
  destruct (decide (Original r ∈ Original <$> firsts l)) as [Hin|Hin];
    rewrite firsts_originals in Hin; by rewrite decide_bool_decide, ?bool_decide_true,
      ?bool_decide_false by done.
Qed.

Lemma firstOccurrence_None (o : string) (l : list ImageRef) :
  firstOccurrence o l = None ↔ o ∉ Original <$> l.
Proof.
  unfold firstOccurrence. rewrite list_find_None, Forall_forall, list_elem_of_fmap.
  split.
  - intros H (r & -> & Hr). by apply (H r).
  - intros H r Hr Ho. apply H. by exists r.
Qed.

Lemma firstOccurrence_original (o : string) (l : list ImageRef) (k : nat) (r : ImageRef) :
  firstOccurrence o l = Some (k, r) → Original r = o ∧ l !! k = Some r.
Proof. unfold firstOccurrence. rewrite list_find_Some. by intros (? & ? & _). Qed.

(** The kept references stand in the order of the first occurrences. *)
Lemma firsts_lookup (l : list ImageRef) (a : nat) (r : ImageRef) :
  firsts l !! a = Some r → ∃ k, firstOccurrence (Original r) l = Some (k, r).
Proof.
  revert a r. induction l as [|x l IH] using rev_ind; intros a r; [done|].
  rewrite firsts_snoc. case_decide as Hin.
  - intros [k Hk]%IH. exists k. by apply list_find_app_l.
  - intros [[_ Ha]|[_ ->]]%lookup_snoc_Some.
    + destruct (IH _ _ Ha) as [k Hk]. exists k. by apply list_find_app_l.
    + exists (length l). apply list_find_app_Some. right.
      split; [done|]. split; [by apply firstOccurrence_None|].
      rewrite Nat.sub_diag. simpl. by rewrite decide_True.
Qed.

Lemma firsts_order (l : list ImageRef) (a b : nat) (ra rb : ImageRef) :
  a < b → firsts l !! a = Some ra → firsts l !! b = Some rb →
  ∃ ka kb, firstOccurrence (Original ra) l = Some (ka, ra) ∧
           firstOccurrence (Original rb) l = Some (kb, rb) ∧ ka < kb.
Proof.
  revert a b ra rb. induction l as [|x l IH] using rev_ind; intros a b ra rb Hab; [done|].
  rewrite firsts_snoc. case_decide as Hin.
  - intros Ha Hb. destruct (IH _ _ _ _ Hab Ha Hb) as (ka & kb & Hka & Hkb & Hlt).
    exists ka, kb. split_and!; [by apply list_find_app_l..|done].
  - intros [[Hla Ha]|[Hla ->]]%lookup_snoc_Some [[Hlb Hb]|[Hlb ->]]%lookup_snoc_Some;
      [| |lia..].
    + destruct (IH _ _ _ _ Hab Ha Hb) as (ka & kb & Hka & Hkb & Hlt).
      exists ka, kb. split_and!; [by apply list_find_app_l..|done].
    + destruct (firsts_lookup _ _ _ Ha) as [ka Hka].
      exists ka, (length l). split_and!.
      * by apply list_find_app_l.
      * apply list_find_app_Some. right.
        split; [done|]. split; [by apply firstOccurrence_None|].
        rewrite Nat.sub_diag. simpl. by rewrite decide_True.
      * apply firstOccurrence_original in Hka as [_ Hka].
        by apply lookup_lt_Some in Hka.
Qed.

Lemma firsts_complete (l : list ImageRef) (o : string) (k : nat) (r : ImageRef) :
  firstOccurrence o l = Some (k, r) → r ∈ firsts l.
Proof.
  revert k. induction l as [|x l IH] using rev_ind; intros k; [done|].
  unfold firstOccurrence. rewrite list_find_app_Some, firsts_snoc.
  intros [Hl|(_ & Hnone & Hx)].
  - case_decide; [by eapply IH|]. apply elem_of_app. left. by eapply IH.
  - apply firstOccurrence_None in Hnone.
    simpl in Hx. case_decide as Ho; [|done]. injection Hx as _ ->. subst o.
    rewrite decide_False by done. apply elem_of_app. right. by apply list_elem_of_singleton.
Qed.

Lemma firsts_NoDup (l : list ImageRef) : NoDup (Original <$> firsts l).
Proof.
  induction l as [|x l IH] using rev_ind; [by apply NoDup_nil|].
  rewrite firsts_snoc_kept. case_decide as Hin; [done|].
  rewrite fmap_app. apply NoDup_app. split_and!; [done| |by apply NoDup_singleton].
  intros o Ho ->%list_elem_of_singleton. done.
Qed.

(** In a list without two equal keys, a key selects one element or none. *)
Lemma filter_key_NoDup {A} (key : A → string) (o : string) (l : list A) :
  NoDup (key <$> l) →
  length (filter (λ x, key x = o) l) = if decide (o ∈ key <$> l) then 1 else 0.
Proof.
  induction l as [|x l IH]; [done|].
  rewrite fmap_cons, NoDup_cons. intros [Hx Hl].
  rewrite filter_cons. specialize (IH Hl).
  destruct (decide (key x = o)) as [<-|Hne].
  - simpl. rewrite IH. rewrite decide_False by done.
    rewrite decide_True; [done|]. by left.
  - rewrite IH. destruct (decide (o ∈ key <$> l)) as [Hin|Hin].
    + rewrite decide_True; [done|]. by right.
    + rewrite decide_False; [done|]. intros [?|?]%elem_of_cons; done.
Qed.

(** ** Runs of the assembler *)

Lemma seenAt_insert (m : gmap string bool) (key o : string) :
  seenAt (<[key := true]> m) o = true ↔ o = key ∨ seenAt m o = true.
Proof.
  unfold seenAt. destruct (decide (key = o)) as [->|Hne].
  - rewrite lookup_insert_eq. simpl. split; [by left|done].
  - rewrite lookup_insert_ne by done. split; [by right|].
    by intros [->|?].
Qed.

Lemma callsOf_app (tr1 tr2 : list Event) : callsOf (tr1 ++ tr2) = callsOf tr1 ++ callsOf tr2.
Proof. apply omap_app. Qed.

Lemma pinsOf_app (tr1 tr2 : list Event) : pinsOf (tr1 ++ tr2) = pinsOf tr1 ++ pinsOf tr2.
Proof. apply omap_app. Qed.

Lemma selects_ruleOf (o : string) (pin : ImageRef * string) :
  selects o (ruleOf pin) ↔ Original pin.1 = o.
Proof.
  unfold selects, ruleOf. simpl. split; [|by intros ->].
  apply append_inj_l.
Qed.

Section Assembly.
Variable ParseFile : string → outcome (list ImageRef).
Variable manifest_Digest : list Byte.byte → outcome Digest.
Variable digest_Parse : string → outcome Digest.
Variable anchoredDigestRegexp : string → bool.
Variable client : Client.

Abbreviation inv := (Inv ParseFile manifest_Digest client).
Abbreviation stopped := (Stopped ParseFile manifest_Digest client).
Abbreviation failed := (failedCall ParseFile manifest_Digest client).
Abbreviation step := (pinRef manifest_Digest digest_Parse anchoredDigestRegexp client).
Abbreviation steps := (pinRefs manifest_Digest digest_Parse anchoredDigestRegexp client).
Abbreviation file :=
  (pinFile ParseFile manifest_Digest digest_Parse anchoredDigestRegexp client).
Abbreviation files :=
  (pinFiles ParseFile manifest_Digest digest_Parse anchoredDigestRegexp client).

Lemma inv_start : inv start [].
Proof.
  split; simpl; try done.
  - intros o. unfold seenAt. rewrite lookup_empty. simpl.
    split; [done|]. by intros ?%elem_of_nil.
  - by intros ev ?%elem_of_nil.
Qed.

Lemma inv_calls_unpinned (st : Run) (seenRefs : list ImageRef) (r : ImageRef) :
  inv st seenRefs → r ∈ callsOf (trace st) → unpinned r.
Proof.
  intros [_ _ _ Hc _]. rewrite Hc, list_elem_of_filter. by intros [? _].
Qed.

Lemma inv_pins_unpinned (st : Run) (seenRefs : list ImageRef) (pin : ImageRef * string) :
  inv st seenRefs → pin ∈ pinsOf (trace st) → unpinned pin.1.
Proof.
  intros [_ _ Hp _ _] Hin.
  assert (pin.1 ∈ (pinsOf (trace st)).*1) as Hin' by by apply list_elem_of_fmap_2.
  rewrite Hp, list_elem_of_filter in Hin'. by destruct Hin'.
Qed.

(** A duplicate leaves the run as it is. *)
Lemma pinRef_seen (st : Run) (r : ImageRef) :
  seenAt (seen st) (Original r) = true → step st r = (st, None).
Proof. intros H. unfold pinRef. by rewrite H. Qed.

(** One iteration of the inner loop. *)
Lemma pinRef_spec (st : Run) (seenRefs : list ImageRef) (r : ImageRef) :
  inv st seenRefs →
  match step st r with
  | (st', None) => inv st' (seenRefs ++ [r])
  | (st', Some err) => stopped st' err
  end.
Proof.
  intros Hinv. pose proof Hinv as [Hseen Hrules Hpins Hcalls Hok].
  unfold pinRef. destruct (seenAt (seen st) (Original r)) eqn:Hs.
  { apply Hseen in Hs. split; try done.
    - intros o. rewrite Hseen, fmap_app, elem_of_app. split; [by left|].
      intros [?| ->%list_elem_of_singleton]; done.
    - by rewrite firsts_snoc, decide_True.
    - by rewrite firsts_snoc, decide_True. }
  assert (Original r ∉ Original <$> seenRefs) as Hnew.
  { intros Hin%Hseen. congruence. }
  assert (∀ o, seenAt (<[Original r := true]> (seen st)) o = true
               ↔ o ∈ Original <$> seenRefs ++ [r]) as Hseen'.
  { intros o. rewrite seenAt_insert, Hseen, fmap_app, elem_of_app.
    simpl. rewrite list_elem_of_singleton. tauto. }
  assert (firsts (seenRefs ++ [r]) = firsts seenRefs ++ [r]) as Hfirsts.
  { by rewrite firsts_snoc, decide_False. }
  destruct (isDigested (Ref r)) eqn:Hd.
  { split; simpl; try done.
    - rewrite Hfirsts, filter_app, Hpins.
      rewrite (filter_cons_False _ r) by (unfold unpinned; congruence).
      by rewrite filter_nil, app_nil_r.
    - rewrite Hfirsts, filter_app, Hcalls.
      rewrite (filter_cons_False _ r) by (unfold unpinned; congruence).
      by rewrite filter_nil, app_nil_r. }
  assert (filter unpinned (firsts (seenRefs ++ [r]))
          = filter unpinned (firsts seenRefs) ++ [r]) as Hkept.
  { rewrite Hfirsts, filter_app. by rewrite (filter_cons_True _ r). }
  assert (∀ err, failed (GetDigestCall r) = false → stopped
            {| seen := <[Original r := true]> (seen st); pol := pol st;
               trace := trace st ++ [GetDigestCall r] |} err) as Hquiet.
  { intros err Hr. split; simpl.
    - intros r'. rewrite callsOf_app, elem_of_app. simpl.
      intros [?| ->%list_elem_of_singleton]; [by eapply inv_calls_unpinned|done].
    - intros pin. rewrite pinsOf_app, app_nil_r. by eapply inv_pins_unpinned.
    - intros ev [Hev| ->%list_elem_of_singleton]%elem_of_app;
        [rewrite (Hok _ Hev)|rewrite Hr]; done.
    - intros ev [Hev| ->%list_elem_of_singleton]%elem_of_app;
        [rewrite (Hok _ Hev)|rewrite Hr]; done. }
  destruct (GetDigest manifest_Digest client (Ref r)) as [digestStr [cause|]] eqn:Hget.
  { split; simpl.
    - intros r'. rewrite callsOf_app, elem_of_app. simpl.
      intros [?| ->%list_elem_of_singleton]; [by eapply inv_calls_unpinned|done].
    - intros pin. rewrite pinsOf_app, app_nil_r. by eapply inv_pins_unpinned.
    - intros ev [Hev| ->%list_elem_of_singleton]%elem_of_app.
      + by rewrite (Hok _ Hev).
      + intros _. simpl. exists cause. by rewrite Hget.
    - intros ev [Hev| ->%list_elem_of_singleton]%elem_of_app.
      + by rewrite (Hok _ Hev).
      + intros _. by exists (trace st). }
  assert (failed (GetDigestCall r) = false) as Hr by (simpl; by rewrite Hget).
  destruct (digest_Parse digestStr) as [perr|d]; [by apply Hquiet|].
  destruct (WithDigest anchoredDigestRegexp (Ref r) d) as [werr|pinnedRef];
    [by apply Hquiet|].
  split; simpl.
  - done.
  - rewrite !pinsOf_app, fmap_app, Hrules. simpl. by rewrite app_nil_r.
  - rewrite !pinsOf_app, !fmap_app, Hpins, Hkept. simpl. by rewrite app_nil_r.
  - rewrite !callsOf_app, Hcalls, Hkept. simpl. by rewrite app_nil_r.
  - intros ev [[Hev| ->%list_elem_of_singleton]%elem_of_app
              | ->%list_elem_of_singleton]%elem_of_app; [by apply Hok|done..].
Qed.

(** The inner loop. *)
Lemma pinRefs_spec (refs : list ImageRef) (st : Run) (seenRefs : list ImageRef) :
  inv st seenRefs →
  match steps st refs with
  | (st', None) => inv st' (seenRefs ++ refs)
  | (st', Some err) => stopped st' err
  end.
Proof.
  revert st seenRefs. induction refs as [|r refs IH]; intros st seenRefs Hinv; simpl.
  - by rewrite app_nil_r.
  - pose proof (pinRef_spec st seenRefs r Hinv) as Hstep.
    destruct (step st r) as [st' [err|]]; [done|].
    specialize (IH st' _ Hstep). by rewrite <- app_assoc in IH.
Qed.

(** One iteration of the outer loop. *)
Lemma pinFile_spec (st : Run) (seenRefs : list ImageRef) (dockerfilePath : string) :
  inv st seenRefs →
  match file st dockerfilePath with
  | (st', None) =>
      ∃ refs, ParseFile dockerfilePath = inr refs ∧ inv st' (seenRefs ++ refs)
  | (st', Some err) => stopped st' err
  end.
Proof.
  intros Hinv. pose proof Hinv as [Hseen Hrules Hpins Hcalls Hok].
  unfold pinFile. destruct (ParseFile dockerfilePath) as [cause|refs] eqn:Hparse.
  - split; simpl.
    + intros r. rewrite callsOf_app, app_nil_r. by eapply inv_calls_unpinned.
    + intros pin. rewrite pinsOf_app, app_nil_r. by eapply inv_pins_unpinned.
    + intros ev [Hev| ->%list_elem_of_singleton]%elem_of_app.
      * by rewrite (Hok _ Hev).
      * intros _. simpl. by exists cause.
    + intros ev [Hev| ->%list_elem_of_singleton]%elem_of_app.
      * by rewrite (Hok _ Hev).
      * intros _. by exists (trace st).
  - match goal with |- context [steps ?st0 refs] =>
      pose proof (pinRefs_spec refs st0 seenRefs) as Hloop end.
    destruct (steps _ refs) as [st' [err|]].
    + apply Hloop. split; simpl; rewrite ?pinsOf_app, ?callsOf_app, ?app_nil_r; try done.
      intros ev [Hev| ->%list_elem_of_singleton]%elem_of_app; [by apply Hok|].
      simpl. by rewrite Hparse.
    + exists refs. split; [done|].
      apply Hloop. split; simpl; rewrite ?pinsOf_app, ?callsOf_app, ?app_nil_r; try done.
      intros ev [Hev| ->%list_elem_of_singleton]%elem_of_app; [by apply Hok|].
      simpl. by rewrite Hparse.
Qed.

Lemma extracted_cons (dockerfilePath : string) (paths : list string) (refs : list ImageRef) :
  ParseFile dockerfilePath = inr refs →
  extracted ParseFile {| Dockerfiles := dockerfilePath :: paths |}
  = refs ++ extracted ParseFile {| Dockerfiles := paths |}.
Proof. intros H. unfold extracted. simpl. by rewrite H. Qed.

(** The outer loop. *)
Lemma pinFiles_spec (paths : list string) (st : Run) (seenRefs : list ImageRef) :
  inv st seenRefs →
  match files st paths with
  | (st', None) =>
      inv st' (seenRefs ++ extracted ParseFile {| Dockerfiles := paths |}) ∧
      ∀ dockerfilePath, dockerfilePath ∈ paths →
                        ∃ refs, ParseFile dockerfilePath = inr refs
  | (st', Some err) => stopped st' err
  end.
Proof.
  revert st seenRefs. induction paths as [|p paths IH]; intros st seenRefs Hinv; simpl.
  - split; [by rewrite app_nil_r|]. by intros ? ?%elem_of_nil.
  - pose proof (pinFile_spec st seenRefs p Hinv) as Hfile.
    destruct (file st p) as [st' [err|]]; [done|].
    destruct Hfile as (refs & Hparse & Hinv').
    specialize (IH st' _ Hinv').
    destruct (files st' paths) as [st'' [err|]]; [done|].
    destruct IH as [IH Hall]. split.
    + by rewrite (extracted_cons _ _ _ Hparse), app_assoc.
    + intros q [->|?]%elem_of_cons; [by exists refs|by apply Hall].
Qed.

Abbreviation generate :=
  (GeneratePolicy ParseFile manifest_Digest digest_Parse anchoredDigestRegexp client).
Abbreviation traceOf :=
  (GeneratePolicy_trace ParseFile manifest_Digest digest_Parse anchoredDigestRegexp client).

(** A run that returns a document. *)
Lemma GeneratePolicy_document (opts : Options) (doc : Policy) :
  generate opts = (Some doc, None) →
  ∃ st, files start (Dockerfiles opts) = (st, None) ∧ doc = pol st ∧
        traceOf opts = trace st ∧
        inv st (extracted ParseFile opts) ∧
        ∀ dockerfilePath, dockerfilePath ∈ Dockerfiles opts →
                          ∃ refs, ParseFile dockerfilePath = inr refs.
Proof.
  unfold GeneratePolicy, GeneratePolicy_trace.
  pose proof (pinFiles_spec (Dockerfiles opts) start [] inv_start) as Hrun.
  destruct (files start (Dockerfiles opts)) as [st [err|]]; [done|].
  intros [= <-]. exists st. destruct Hrun as [Hinv Hall]. destruct opts. done.
Qed.

(** A run that returns an error. *)
Lemma GeneratePolicy_error (opts : Options) (err : error) :
  (generate opts).2 = Some err →
  ∃ st, files start (Dockerfiles opts) = (st, Some err) ∧
        generate opts = (None, Some err) ∧
        traceOf opts = trace st ∧ stopped st err.
Proof.
  unfold GeneratePolicy, GeneratePolicy_trace.
  pose proof (pinFiles_spec (Dockerfiles opts) start [] inv_start) as Hrun.
  destruct (files start (Dockerfiles opts)) as [st [err'|]]; [|done].
  intros [= <-]. by exists st.
Qed.

(** Whatever the outcome, the registry is asked about references without
    a digest only, and rules are appended for such references only. *)
Lemma GeneratePolicy_trace_unpinned (opts : Options) :
  (∀ r, r ∈ callsOf (traceOf opts) → unpinned r) ∧
  (∀ pin, pin ∈ pinsOf (traceOf opts) → unpinned pin.1).
Proof.
  unfold GeneratePolicy_trace.
  pose proof (pinFiles_spec (Dockerfiles opts) start [] inv_start) as Hrun.
  destruct (files start (Dockerfiles opts)) as [st [err|]]; simpl.
  - by destruct Hrun.
  - destruct Hrun as [Hinv _]. split; intros ?.
    + by eapply inv_calls_unpinned.
    + by eapply inv_pins_unpinned.
Qed.

Lemma rulesFor_pins (o : string) (pins : list (ImageRef * string)) :
  length (filter (selects o) (ruleOf <$> pins))
  = length (filter (λ r, Original r = o) pins.*1).
Proof.
  induction pins as [|pin pins IH]; [done|].
  rewrite !fmap_cons, !filter_cons.
  destruct (decide (selects o (ruleOf pin))) as [H|H];
    destruct (decide (Original pin.1 = o)) as [H'|H']; simpl; rewrite ?IH; try done.
  - by apply selects_ruleOf in H.
  - by apply selects_ruleOf in H'.
Qed.

Lemma firsts_unique (l : list ImageRef) (r r' : ImageRef) :
  r ∈ firsts l → r' ∈ firsts l → Original r = Original r' → r = r'.
Proof.
  intros [a Ha]%list_elem_of_lookup [b Hb]%list_elem_of_lookup Ho.
  destruct (firsts_lookup _ _ _ Ha) as [ka Hka].
  destruct (firsts_lookup _ _ _ Hb) as [kb Hkb].
  rewrite Ho in Hka. congruence.
Qed.

Lemma firsts_elem_of (l : list ImageRef) (r : ImageRef) : r ∈ firsts l → r ∈ l.
Proof.
  intros [a Ha]%list_elem_of_lookup.
  destruct (firsts_lookup _ _ _ Ha) as [k [_ Hk]%firstOccurrence_original].
  by eapply list_elem_of_lookup_2.
Qed.

Lemma kept_NoDup (l : list ImageRef) :
  NoDup (Original <$> filter unpinned (firsts l)).
Proof.
  eapply sublist_NoDup; [apply firsts_NoDup|].
  apply fmap_sublist, sublist_filter.
Qed.

(** C1 (amended).  In the document of a run that succeeds, a reference
    text has exactly one rule when its first occurrence across the input
    files is not digest-qualified, and no rule when that occurrence is
    digest-qualified or the text does not occur; however often the text
    occurs, the later occurrences add no rule: an iteration on a text
    already seen leaves the document, and the whole state, as it is. *)
Theorem GeneratePolicy_rules_per_original (opts : Options) (doc : Policy) (o : string) :
  generate opts = (Some doc, None) →
  length (rulesFor o doc)
  = match firstOccurrence o (extracted ParseFile opts) with
    | Some (_, r) => if isDigested (Ref r) then 0 else 1
    | None => 0
    end ∧
  ∀ st r, seenAt (seen st) (Original r) = true → step st r = (st, None).
Proof.
  intros Hdoc. split; [|apply pinRef_seen]. revert Hdoc.
  intros (st & _ & -> & _ & [_ Hrules Hpins _ _] & _)%GeneratePolicy_document.
  unfold rulesFor. rewrite Hrules, rulesFor_pins, Hpins.
  rewrite filter_key_NoDup by apply kept_NoDup.
  set (every := extracted ParseFile opts).
  destruct (firstOccurrence o every) as [[k r]|] eqn:Hfirst.
  - pose proof (firsts_complete _ _ _ _ Hfirst) as Hin.
    apply firstOccurrence_original in Hfirst as [Ho _].
    destruct (isDigested (Ref r)) eqn:Hd.
    + rewrite decide_False; [done|].
      intros (r' & Ho' & [Hun Hin']%list_elem_of_filter)%list_elem_of_fmap.
      assert (r = r') as <- by (eapply firsts_unique; [done..|congruence]).
      unfold unpinned in Hun. congruence.
    + rewrite decide_True; [done|].
      apply list_elem_of_fmap. exists r. split; [done|].
      by apply list_elem_of_filter.
  - rewrite decide_False; [done|].
    apply firstOccurrence_None in Hfirst.
    intros (r' & Ho' & [_ Hin']%list_elem_of_filter)%list_elem_of_fmap.
    apply Hfirst. apply list_elem_of_fmap. exists r'. split; [done|].
    by apply firsts_elem_of.
Qed.

Lemma filter_lookup_inv {A} (P : A → Prop) `{!∀ x, Decision (P x)}
    (l : list A) (a : nat) (x : A) :
  filter P l !! a = Some x → ∃ a', l !! a' = Some x.
Proof.
  intros Hx%list_elem_of_lookup_2. apply list_elem_of_filter in Hx as [_ Hx].
  by apply list_elem_of_lookup.
Qed.

(** Filtering keeps the relative order. *)
Lemma filter_lookup_order {A} (P : A → Prop) `{!∀ x, Decision (P x)}
    (l : list A) (a b : nat) (x y : A) :
  a < b → filter P l !! a = Some x → filter P l !! b = Some y →
  ∃ a' b', a' < b' ∧ l !! a' = Some x ∧ l !! b' = Some y.
Proof.
  revert a b. induction l as [|h l IH]; intros a b Hab; [done|].
  rewrite filter_cons. destruct (decide (P h)) as [Hh|Hh].
  - destruct a as [|a], b as [|b]; try lia; simpl.
    + intros [= ->] [b' Hb]%filter_lookup_inv.
      exists 0, (S b'). split_and!; [lia|done..].
    + intros Ha Hb. destruct (IH a b) as (a' & b' & ? & ? & ?); [lia|done..|].
      exists (S a'), (S b'). split_and!; [lia|done..].
  - intros Ha Hb. destruct (IH a b) as (a' & b' & ? & ? & ?); [lia|done..|].
    exists (S a'), (S b'). split_and!; [lia|done..].
Qed.

(** C2.  In the document of a run that succeeds, a rule that stands
    before another selects a reference text whose first occurrence
    across the input files, taken in the order supplied and in
    extraction order within a file, comes before the first occurrence of
    the text the other selects. *)
Theorem GeneratePolicy_first_seen_order (opts : Options) (doc : Policy)
    (i j : nat) (ri rj : Rule) :
  generate opts = (Some doc, None) →
  i < j → Rules doc !! i = Some ri → Rules doc !! j = Some rj →
  ∃ refi refj ki kj,
    selects (Original refi) ri ∧ selects (Original refj) rj ∧
    firstOccurrence (Original refi) (extracted ParseFile opts) = Some (ki, refi) ∧
    firstOccurrence (Original refj) (extracted ParseFile opts) = Some (kj, refj) ∧
    ki < kj.
Proof.
  intros (st & _ & -> & _ & [_ Hrules Hpins _ _] & _)%GeneratePolicy_document Hij.
  rewrite Hrules, !list_lookup_fmap.
  destruct (pinsOf (trace st) !! i) as [pi|] eqn:Hi; [|done].
  destruct (pinsOf (trace st) !! j) as [pj|] eqn:Hj; [|done].
  simpl. intros [= <-] [= <-].
  assert (filter unpinned (firsts (extracted ParseFile opts)) !! i = Some pi.1) as Hi'.
  { by rewrite <- Hpins, list_lookup_fmap, Hi. }
  assert (filter unpinned (firsts (extracted ParseFile opts)) !! j = Some pj.1) as Hj'.
  { by rewrite <- Hpins, list_lookup_fmap, Hj. }
  destruct (filter_lookup_order _ _ _ _ _ _ Hij Hi' Hj') as (a & b & Hab & Ha & Hb).
  destruct (firsts_order _ _ _ _ _ Hab Ha Hb) as (ki & kj & Hki & Hkj & Hlt).
  exists pi.1, pj.1, ki, kj. split_and!; try done; by apply selects_ruleOf.
Qed.

(** C4.  For a digest-qualified reference, under whatever text it was
    written, the run makes no resolution call and appends no rule, whether
    it succeeds or stops on an error;
    the document of a run that succeeds holds the rules the run appended
    and nothing else, so it has no rule for the text of that reference
    when every extracted reference written that way is
    digest-qualified. *)
Theorem GeneratePolicy_skips_digested (opts : Options) (r : ImageRef) :
  isDigested (Ref r) = true →
  (∀ r', Ref r' = Ref r → GetDigestCall r' ∉ traceOf opts) ∧
  (∀ r' pinned, Ref r' = Ref r → AddPinRuleCall r' pinned ∉ traceOf opts) ∧
  (∀ doc, generate opts = (Some doc, None) →
     Rules doc = ruleOf <$> pinsOf (traceOf opts) ∧
     ((∀ r', r' ∈ extracted ParseFile opts → Original r' = Original r →
             isDigested (Ref r') = true) →
      rulesFor (Original r) doc = [])).
Proof.
  intros Hd. destruct (GeneratePolicy_trace_unpinned opts) as [Hcalls Hpins].
  split_and!.
  - intros r' Hr Hin.
    assert (unpinned r') as Hun; [|unfold unpinned in Hun; congruence].
    apply Hcalls, list_elem_of_omap. by exists (GetDigestCall r').
  - intros r' pinned Hr Hin.
    assert (unpinned (r', pinned).1) as Hun;
      [|unfold unpinned in Hun; simpl in Hun; congruence].
    apply Hpins, list_elem_of_omap. by exists (AddPinRuleCall r' pinned).
  - intros doc (st & _ & -> & -> & [_ Hrules Hkept _ _] & _)%GeneratePolicy_document.
    split; [done|]. intros Hall. apply elem_of_nil_inv. intros rule.
    unfold rulesFor. rewrite list_elem_of_filter, Hrules, list_elem_of_fmap.
    intros [Hsel (pin & -> & Hpin)]. apply selects_ruleOf in Hsel.
    assert (pin.1 ∈ filter unpinned (firsts (extracted ParseFile opts))) as Hin.
    { rewrite <- Hkept. by apply list_elem_of_fmap_2. }
    apply list_elem_of_filter in Hin as [Hun Hin%firsts_elem_of].
    specialize (Hall _ Hin Hsel). unfold unpinned in Hun. congruence.
Qed.

Lemma GeneratePolicy_cases (opts : Options) :
  (∃ doc, generate opts = (Some doc, None)) ∨ (∃ err, generate opts = (None, Some err)).
Proof.
  unfold GeneratePolicy. destruct (files start (Dockerfiles opts)) as [st [err|]]; eauto.
Qed.

Lemma reports_subject (err : error) (ev : Event) :
  reports ParseFile manifest_Digest client err ev → Contains (Error err) (subject ev) = true.
Proof.
  destruct ev as [p|r|r pinned]; cbn [reports subject]; [| |done].
  - intros (cause & _ & ->). cbn [Error]. apply Contains_intro.
  - intros (cause & _ & ->). cbn [Error]. apply Contains_intro.
Qed.

(** C3.  When a file of the run does not parse, or the digest resolution
    the run makes for a reference returns an error, [GeneratePolicy]
    returns a nil document and the error it made of that failure, which
    wraps the cause and whose text holds the path of the file or the
    text of the reference; the failed call is the last thing the run
    did.  An input file that does not parse, or a
    first occurrence without a digest whose resolution fails, leaves no
    run that returns a document; and no run returns a document next to
    an error. *)
Theorem GeneratePolicy_fail_fast (opts : Options) :
  (∀ ev, ev ∈ traceOf opts → failed ev = true →
     ∃ err, generate opts = (None, Some err) ∧
            reports ParseFile manifest_Digest client err ev ∧
            Contains (Error err) (subject ev) = true ∧
            ∃ tr, traceOf opts = tr ++ [ev]) ∧
  (∀ dockerfilePath cause,
     dockerfilePath ∈ Dockerfiles opts → ParseFile dockerfilePath = inl cause →
     ∃ err, generate opts = (None, Some err)) ∧
  (∀ k r cause,
     firstOccurrence (Original r) (extracted ParseFile opts) = Some (k, r) →
     isDigested (Ref r) = false →
     (GetDigest manifest_Digest client (Ref r)).2 = Some cause →
     ∃ err, generate opts = (None, Some err)) ∧
  (∀ err, (generate opts).2 = Some err → (generate opts).1 = None).
Proof.
  split_and!.
  - intros ev Hev Hfail.
    destruct (GeneratePolicy_cases opts) as [[doc Hdoc]|[err Herr]].
    + apply GeneratePolicy_document in Hdoc as (st & _ & _ & Htr & [_ _ _ _ Hok] & _).
      rewrite Htr in Hev. rewrite (Hok _ Hev) in Hfail. done.
    + exists err. split; [done|].
      destruct (GeneratePolicy_error opts err) as (st & _ & _ & Htr & [_ _ Hrep Hlast]).
      { by rewrite Herr. }
      rewrite Htr in Hev. specialize (Hrep _ Hev Hfail).
      split_and!; [done|by apply reports_subject|].
      rewrite Htr. by apply Hlast.
  - intros p cause Hp Hparse.
    destruct (GeneratePolicy_cases opts) as [[doc Hdoc]|?]; [|done].
    apply GeneratePolicy_document in Hdoc as (st & _ & _ & _ & _ & Hall).
    destruct (Hall _ Hp) as [refs Hrefs]. congruence.
  - intros k r cause Hfirst Hun Hget.
    destruct (GeneratePolicy_cases opts) as [[doc Hdoc]|?]; [|done].
    apply GeneratePolicy_document in Hdoc as (st & _ & _ & _ & [_ _ _ Hcalls Hok] & _).
    assert (GetDigestCall r ∈ trace st) as Hcall.
    { assert (r ∈ callsOf (trace st)) as Hin.
      { rewrite Hcalls. apply list_elem_of_filter. split; [done|].
        by eapply firsts_complete. }
      apply list_elem_of_omap in Hin as (ev & Hev & Hr).
      destruct ev; simplify_eq. done. }
    apply Hok in Hcall. simpl in Hcall. by rewrite Hget in Hcall.
  - intros err Herr.
    destruct (GeneratePolicy_error opts err Herr) as (st & _ & -> & _). done.
Qed.
End Assembly.

(** ** Two runs against registries that serve the same bytes *)

Section Idempotence.
Variable ParseFile : string → outcome (list ImageRef).
Variable manifest_Digest : list Byte.byte → outcome Digest.
Variable digest_Parse : string → outcome Digest.
Variable anchoredDigestRegexp : string → bool.
Variable marshal : Policy → outcome string.
Variable appendIndent : string → string → string → outcome string.
Variables c1 c2 : Client.

(** The two registries return the same manifest bytes for every
    reference, or none for it. *)
Hypothesis same_bytes : ∀ ref, manifestBytes c1 ref = manifestBytes c2 ref.

Abbreviation get1 := (GetDigest manifest_Digest c1).
Abbreviation get2 := (GetDigest manifest_Digest c2).
Abbreviation step1 := (pinRef manifest_Digest digest_Parse anchoredDigestRegexp c1).
Abbreviation step2 := (pinRef manifest_Digest digest_Parse anchoredDigestRegexp c2).
Abbreviation steps1 := (pinRefs manifest_Digest digest_Parse anchoredDigestRegexp c1).
Abbreviation steps2 := (pinRefs manifest_Digest digest_Parse anchoredDigestRegexp c2).
Abbreviation files1 :=
  (pinFiles ParseFile manifest_Digest digest_Parse anchoredDigestRegexp c1).
Abbreviation files2 :=
  (pinFiles ParseFile manifest_Digest digest_Parse anchoredDigestRegexp c2).
Abbreviation generate1 :=
  (GeneratePolicy ParseFile manifest_Digest digest_Parse anchoredDigestRegexp c1).
Abbreviation generate2 :=
  (GeneratePolicy ParseFile manifest_Digest digest_Parse anchoredDigestRegexp c2).
Abbreviation write := (WritePolicy marshal appendIndent).

(** Two outcomes of a loop agree when they reach the same state and both
    stop or both go on. *)
Abbreviation agree x y := (x.1 = y.1 ∧ (x.2 = None ↔ y.2 = None)).

Lemma GetDigest_agree (ref : Named) :
  ((get1 ref).2 = None ∧ get1 ref = get2 ref) ∨
  ((get1 ref).2 ≠ None ∧ (get2 ref).2 ≠ None).
Proof.
  rewrite !GetDigest_resolve.
  pose proof (same_bytes (normalized ref)) as Hsame. unfold manifestBytes in Hsame.
  destruct (fetched c1 (normalized ref)) as [[b report1]|] eqn:H1;
    destruct (fetched c2 (normalized ref)) as [[b' report2]|] eqn:H2;
    simplify_eq/=.
  - rewrite (resolve_fetched _ _ _ _ _ H1), (resolve_fetched _ _ _ _ _ H2).
    destruct (manifest_Digest b'); [by right|by left].
  - right. split; by apply resolve_not_fetched.
Qed.

Lemma pinRef_agree (st : Run) (r : ImageRef) : agree (step1 st r) (step2 st r).
Proof.
  unfold pinRef. destruct (seenAt (seen st) (Original r)); [done|].
  destruct (isDigested (Ref r)); [done|].
  destruct (GetDigest_agree (Ref r)) as [[Hok Heq]|[H1 H2]].
  - rewrite <- Heq. destruct (get1 (Ref r)) as [digestStr [err|]]; [done|].
    destruct (digest_Parse digestStr); [done|].
    by destruct (WithDigest anchoredDigestRegexp (Ref r) _).
  - destruct (get1 (Ref r)) as [d1 [e1|]], (get2 (Ref r)) as [d2 [e2|]]; done.
Qed.

Lemma pinRefs_agree (refs : list ImageRef) (st : Run) :
  agree (steps1 st refs) (steps2 st refs).
Proof.
  revert st. induction refs as [|r refs IH]; intros st; simpl; [done|].
  destruct (pinRef_agree st r) as [Hst Herr].
  destruct (step1 st r) as [st1 [e1|]], (step2 st r) as [st2 [e2|]];
    simpl in *; subst.
  - by split.
  - destruct Herr as [_ H]. by specialize (H eq_refl).
  - destruct Herr as [H _]. by specialize (H eq_refl).
  - apply IH.
Qed.

Lemma pinFiles_agree (paths : list string) (st : Run) :
  agree (files1 st paths) (files2 st paths).
Proof.
  revert st. induction paths as [|p paths IH]; intros st; simpl; [done|].
  unfold pinFile. destruct (ParseFile p) as [cause|refs]; [done|].
  match goal with |- context [steps1 ?st0 refs] =>
    destruct (pinRefs_agree refs st0) as [Hst Herr] end.
  destruct (steps1 _ refs) as [st1 [e1|]], (steps2 _ refs) as [st2 [e2|]];
    simpl in *; subst.
  - by split.
  - destruct Herr as [_ H]. by specialize (H eq_refl).
  - destruct Herr as [H _]. by specialize (H eq_refl).
  - apply IH.
Qed.

Lemma GeneratePolicy_agree (opts : Options) :
  (∃ doc, generate1 opts = (Some doc, None) ∧ generate2 opts = (Some doc, None)) ∨
  (∃ err1 err2, generate1 opts = (None, Some err1) ∧ generate2 opts = (None, Some err2)).
Proof.
  unfold GeneratePolicy.
  destruct (pinFiles_agree (Dockerfiles opts) start) as [Hst Herr].
  destruct (files1 start _) as [st1 [e1|]], (files2 start _) as [st2 [e2|]];
    simpl in *; subst; eauto.
  - destruct Herr as [_ H]. by specialize (H eq_refl).
  - destruct Herr as [H _]. by specialize (H eq_refl).
Qed.

Lemma WritePolicy_indent (w : string) (doc : Policy) (out : string) :
  serialized (write w doc) = Some out →
  ∃ json indented, marshal doc = inr json ∧
                   appendIndent (json +:+ newline) "" "  " = inr indented ∧
                   out = w +:+ indented.
Proof.
  unfold WritePolicy, Encode, SetIndent. simpl.
  destruct (marshal doc) as [|json] eqn:Hjson; [done|].
  destruct (appendIndent _ "" "  ") as [|indented] eqn:Hindent; [done|].
  intros [= <-]. by exists json, indented.
Qed.

(** C9.  Two runs over the same input files, against registries that
    return the same manifest bytes for every reference, leave the same
    bytes in the writer, or both leave none; the bytes are the JSON of
    the document re-indented with an empty prefix and two spaces,
    followed by a newline. *)
Theorem GeneratePolicy_WritePolicy_idempotent (opts : Options) (w : string) :
  written (generate1 opts) (write w) = written (generate2 opts) (write w) ∧
  ∀ out, written (generate1 opts) (write w) = Some out →
    ∃ doc json indented,
      generate1 opts = (Some doc, None) ∧ generate2 opts = (Some doc, None) ∧
      marshal doc = inr json ∧
      appendIndent (json +:+ newline) "" "  " = inr indented ∧
      out = w +:+ indented.
Proof.
  destruct (GeneratePolicy_agree opts) as [(doc & -> & ->)|(e1 & e2 & -> & ->)];
    [|done].
  split; [done|]. unfold written. intros out Hout.
  destruct (WritePolicy_indent _ _ _ Hout) as (json & indented & ? & ? & ?).
  by exists doc, json, indented.
Qed.
End Idempotence.

(** ** The properties on the concrete environment *)

Lemma hub_same_bytes (report1 report2 : string) (ref : Named) :
  manifestBytes (Fixture.hub report1) ref = manifestBytes (Fixture.hub report2) ref.
Proof.
  unfold manifestBytes, fetched, Fixture.hub, Fixture.serve. simpl.
  destruct (isTagged ref && isDigested ref); [done|].
  destruct (negb (isTagged ref) && negb (isDigested ref)); [done|].
  destruct (String.eqb (domain ref) "docker.io"); [|done].
  destruct (String.eqb (path ref) "library/alpine"); [done|].
  by destruct (String.eqb (path ref) "library/golang").
Qed.

(** C1 as worded fails: the text alpine@sha256:0123 occurs twice in the
    input, the run succeeds, and the document has no rule for it. *)
Lemma GeneratePolicy_digested_duplicate_counterexample :
  length (filter (λ r, Original r = "alpine@sha256:0123")
            (extracted Fixture.files {| Dockerfiles := ["Dockerfile.pinned"] |})) = 2 ∧
  Fixture.generate "" ["Dockerfile.pinned"] = (Some {| Rules := [] |}, None) ∧
  length (rulesFor "alpine@sha256:0123" {| Rules := [] |}) = 0.
Proof. split_and!; vm_compute; reflexivity. Qed.

(** The theorem at the text alpine:3.18, which occurs twice in Dockerfile. *)
Lemma GeneratePolicy_rules_per_original_witness :
  length (rulesFor "alpine:3.18" {| Rules := [Fixture.alpineRule; Fixture.golangRule] |})
  = match firstOccurrence "alpine:3.18"
            (extracted Fixture.files {| Dockerfiles := ["Dockerfile"; "Dockerfile.pinned"] |}) with
    | Some (_, r) => if isDigested (Ref r) then 0 else 1
    | None => 0
    end.
Proof.
  apply (GeneratePolicy_rules_per_original Fixture.files Fixture.digestOf
           Fixture.parseDigest Fixture.digestShape (Fixture.hub "")
           {| Dockerfiles := ["Dockerfile"; "Dockerfile.pinned"] |}
           {| Rules := [Fixture.alpineRule; Fixture.golangRule] |} "alpine:3.18").
  vm_compute. reflexivity.
Defined.

(** The theorem at the two rules of that document. *)
Lemma GeneratePolicy_first_seen_order_witness :
  ∃ refi refj ki kj,
    selects (Original refi) Fixture.alpineRule ∧
    selects (Original refj) Fixture.golangRule ∧
    firstOccurrence (Original refi)
      (extracted Fixture.files {| Dockerfiles := ["Dockerfile"; "Dockerfile.pinned"] |})
    = Some (ki, refi) ∧
    firstOccurrence (Original refj)
      (extracted Fixture.files {| Dockerfiles := ["Dockerfile"; "Dockerfile.pinned"] |})
    = Some (kj, refj) ∧
    ki < kj.
Proof.
  apply (GeneratePolicy_first_seen_order Fixture.files Fixture.digestOf
           Fixture.parseDigest Fixture.digestShape (Fixture.hub "")
           {| Dockerfiles := ["Dockerfile"; "Dockerfile.pinned"] |}
           {| Rules := [Fixture.alpineRule; Fixture.golangRule] |} 0 1).
  - vm_compute. reflexivity.
  - lia.
  - reflexivity.
  - reflexivity.
Defined.

(** The theorem at a run whose fourth call, the resolution of
    ghcr.io/acme/tool:1, fails, and at a run whose second file is missing. *)
Lemma GeneratePolicy_fail_fast_witness :
  (∃ err, Fixture.generate "" ["Dockerfile"; "Dockerfile.ci"] = (None, Some err) ∧
          Contains (Error err) "ghcr.io/acme/tool:1" = true) ∧
  (∃ err, Fixture.generate "" ["Dockerfile"; "nope"] = (None, Some err) ∧
          Contains (Error err) "nope" = true).
Proof.
  split.
  - destruct (proj1 (GeneratePolicy_fail_fast Fixture.files Fixture.digestOf
             Fixture.parseDigest Fixture.digestShape (Fixture.hub "")
             {| Dockerfiles := ["Dockerfile"; "Dockerfile.ci"] |})
             (GetDigestCall Fixture.toolRef)) as (err & Herr & _ & Hname & _).
    + apply list_elem_of_lookup_2 with 6. vm_compute. reflexivity.
    + vm_compute. reflexivity.
    + exists err. split; [exact Herr|exact Hname].
  - destruct (proj1 (GeneratePolicy_fail_fast Fixture.files Fixture.digestOf
             Fixture.parseDigest Fixture.digestShape (Fixture.hub "")
             {| Dockerfiles := ["Dockerfile"; "nope"] |})
             (ParseFileCall "nope")) as (err & Herr & _ & Hname & _).
    + apply list_elem_of_lookup_2 with 5. vm_compute. reflexivity.
    + vm_compute. reflexivity.
    + exists err. split; [exact Herr|exact Hname].
Defined.

(** The theorem at the digest-qualified alpine@sha256:0123. *)
Lemma GeneratePolicy_skips_digested_witness :
  GetDigestCall Fixture.pinnedRef
  ∉ Fixture.traceOf "" ["Dockerfile"; "Dockerfile.pinned"].
Proof.
  apply (GeneratePolicy_skips_digested Fixture.files Fixture.digestOf
           Fixture.parseDigest Fixture.digestShape (Fixture.hub "")
           {| Dockerfiles := ["Dockerfile"; "Dockerfile.pinned"] |} Fixture.pinnedRef);
    reflexivity.
Defined.

(** The theorem at two registries that serve the same bytes and report
    different digests. *)
Lemma GeneratePolicy_WritePolicy_idempotent_witness :
  written (Fixture.generate "sha256:aaaa" ["Dockerfile"])
    (WritePolicy Fixture.marshalRules Fixture.indentWith "")
  = written (Fixture.generate "sha256:bbbb" ["Dockerfile"])
      (WritePolicy Fixture.marshalRules Fixture.indentWith "").
Proof.
  apply (GeneratePolicy_WritePolicy_idempotent Fixture.files Fixture.digestOf
           Fixture.parseDigest Fixture.digestShape Fixture.marshalRules
           Fixture.indentWith (Fixture.hub "sha256:aaaa") (Fixture.hub "sha256:bbbb")
           (hub_same_bytes "sha256:aaaa" "sha256:bbbb")
           {| Dockerfiles := ["Dockerfile"] |} "").
Defined.

(** * Further properties *)

(** ** Lower case and substrings of a concatenation *)

Lemma isASCII_app (a b : string) : isASCII (a +:+ b) = isASCII a && isASCII b.
Proof.
  induction a as [|c a IH]; [done|].
  rewrite append_cons. simpl. by rewrite IH, andb_assoc.
Qed.

Lemma lowerASCII_app (a b : string) :
  lowerASCII (a +:+ b) = lowerASCII a +:+ lowerASCII b.
Proof.
  induction a as [|c a IH]; [done|].
  rewrite append_cons. simpl. by rewrite IH.
Qed.

Lemma Contains_app_r (a b m : string) :
  Contains b m = true → Contains (a +:+ b) m = true.
Proof.
  intros (x & y & ->)%Contains_elim.
  rewrite <- append_assoc. apply Contains_intro.
Qed.

Lemma Contains_app_l (a b m : string) :
  Contains a m = true → Contains (a +:+ b) m = true.
Proof.
  intros (x & y & ->)%Contains_elim.
  rewrite !append_assoc. apply Contains_intro.
Qed.

Lemma containsAny_true (text : string) (markers : list string) :
  containsAny text markers = true ↔ ∃ m, m ∈ markers ∧ Contains text m = true.
Proof.
  unfold containsAny. rewrite existsb_exists.
  split; intros (m & Hm & Hc); exists m; by rewrite ?list_elem_of_In in *.
Qed.

Lemma mentionsAny_containsAny (low : string → string) (markers : list string) (e : error) :
  mentionsAny low markers (Some e) = containsAny (low (Error e)) markers.
Proof. done. Qed.

Section Wrapping.
Variable MapUnicodeToLower : string → string.

(** An ASCII text that ends with a text the classifier accepts is
    accepted. *)
Lemma IsNotFoundOrAuthError_suffix (context cause : string) (e1 e2 : error) :
  Error e1 = cause → Error e2 = context +:+ cause →
  isASCII (context +:+ cause) = true →
  IsNotFoundOrAuthError MapUnicodeToLower (Some e1) = true →
  IsNotFoundOrAuthError MapUnicodeToLower (Some e2) = true.
Proof.
  intros H1 H2 Hascii. rewrite !IsNotFoundOrAuthError_mentionsAny,
    !mentionsAny_containsAny, H1, H2, !containsAny_true.
  intros (m & Hm & Hc). exists m. split; [done|].
  pose proof Hascii as Hboth. rewrite isASCII_app in Hboth.
  apply andb_true_iff in Hboth as [_ Hcause].
  unfold ToLower in *. rewrite Hascii, lowerASCII_app. rewrite Hcause in Hc.
  by apply Contains_app_r.
Qed.

(** An ASCII text with a marker anywhere inside is accepted. *)
Lemma IsNotFoundOrAuthError_infix (a inner b m : string) (e : error) :
  Error e = a +:+ inner +:+ b → isASCII (Error e) = true →
  m ∈ fallbackMarkers → Contains (lowerASCII inner) m = true →
  IsNotFoundOrAuthError MapUnicodeToLower (Some e) = true.
Proof.
  intros He Hascii Hm Hc.
  rewrite IsNotFoundOrAuthError_mentionsAny, mentionsAny_containsAny, containsAny_true.
  exists m. split; [done|]. unfold ToLower. rewrite Hascii, He, !lowerASCII_app.
  by apply Contains_app_r, Contains_app_l.
Qed.

Section GetDigestErrors.
Variable manifest_Digest : list Byte.byte → outcome Digest.
Variable c : Client.

(** An error of [GetDigest] comes with an empty digest string, wraps the
    error of the library call that failed, and its text is a context
    followed by the text of that error. *)
Lemma GetDigest_error_shape (ref : Named) (err : error) :
  (GetDigest manifest_Digest c ref).2 = Some err →
  (GetDigest manifest_Digest c ref).1 = "" ∧
  ∃ context cause, err = wrapError (context +:+ cause) (foreignError cause).
Proof.
  rewrite GetDigest_resolve. unfold resolve.
  destruct (NewReference c _) as [e|imgRef]; simpl.
  { intros [= <-]. split; [done|]. by eexists _, _. }
  destruct (NewImageSource c imgRef) as [e|imgSrc]; simpl.
  { intros [= <-]. split; [done|]. eexists _, e. by rewrite <- !append_assoc. }
  destruct (GetManifest c imgSrc) as [e|[b report]]; simpl.
  { intros [= <-]. split; [done|]. eexists _, e. by rewrite <- !append_assoc. }
  destruct (manifest_Digest b) as [e|d]; simpl; [|done].
  intros [= <-]. split; [done|]. eexists _, e. by rewrite <- !append_assoc.
Qed.


(** After [docker.NewReference], an error of [GetDigest] names the
    reference it went on with. *)
Lemma GetDigest_error_names_reference (ref : Named) (err : error)
    (imgRef : ImageReference c) :
  NewReference c (normalized ref) = inr imgRef →
  (GetDigest manifest_Digest c ref).2 = Some err →
  ∃ a b, Error err = a +:+ Named_String (normalized ref) +:+ b.
Proof.
  rewrite GetDigest_resolve. unfold resolve. intros ->.
  destruct (NewImageSource c imgRef) as [e|imgSrc]; simpl.
  { intros [= <-]. by eexists _, _. }
  destruct (GetManifest c imgSrc) as [e|[b report]]; simpl.
  { intros [= <-]. by eexists _, _. }
  destruct (manifest_Digest b) as [e|d]; simpl; [|done].
  intros [= <-]. by eexists _, _.
Qed.

(** X2.  The classifier reads the whole text of an error, and the errors
    of [GetDigest] name the reference: when the rendering of the reference
    holds one of the markers, as in a tag v1.404, every failure of
    [GetDigest] after [docker.NewReference] is classified as not found or
    unauthorized, whatever the cause was (for an ASCII error text). *)
Theorem GetDigest_error_marker_in_reference (ref : Named) (err : error)
    (imgRef : ImageReference c) (m : string) :
  NewReference c (normalized ref) = inr imgRef →
  (GetDigest manifest_Digest c ref).2 = Some err →
  isASCII (Error err) = true →
  m ∈ fallbackMarkers →
  Contains (lowerASCII (Named_String (normalized ref))) m = true →
  IsNotFoundOrAuthError MapUnicodeToLower (Some err) = true.
Proof.
  intros Hnew Hget Hascii Hm Hc.
  destruct (GetDigest_error_names_reference _ _ _ Hnew Hget) as (a & b & He).
  by eapply IsNotFoundOrAuthError_infix.
Qed.
End GetDigestErrors.
End Wrapping.


Lemma GetDigest_error_marker_in_reference_witness :
  IsNotFoundOrAuthError (λ s, s)
    (GetDigest Fixture.digestOf (Scenario.failing "connection refused") Scenario.odd).2 = true.
Proof.
  apply (GetDigest_error_marker_in_reference (λ s, s) Fixture.digestOf
           (Scenario.failing "connection refused") Scenario.odd _ Scenario.odd "404").
  - reflexivity.
  - reflexivity.
  - reflexivity.
  - vm_compute. do 2 right. left.
  - reflexivity.
Defined.

(** ** [CheckAuth] *)

Section Auth.
Variable MapUnicodeToLower : string → string.
Variable ParseNormalizedNamed : string → outcome Named.
Variable c : Client.

Abbreviation lowered := (ToLower MapUnicodeToLower).
Abbreviation check := (CheckAuth MapUnicodeToLower ParseNormalizedNamed c).

(** What [CheckAuth] makes of a failure to open the image source. *)
Lemma CheckAuth_source_error (registry : string) (ref : Named)
    (imgRef : ImageReference c) (cause : string) :
  ParseNormalizedNamed (registry +:+ "/auth-check:test") = inr ref →
  NewReference c ref = inr imgRef →
  NewImageSource c imgRef = inl cause →
  check registry
  = if containsAny (lowered cause) notFoundMarkers then None
    else if containsAny (lowered cause) authMarkers then Some (loginHint registry)
    else Some (connectFailure registry cause).
Proof.
  intros Hparse Hnew Hsrc. unfold CheckAuth. rewrite Hparse, Hnew, Hsrc.
  unfold containsAny, notFoundMarkers, authMarkers, existsb.
  by rewrite !orb_false_r, !orb_assoc.
Qed.

(** X3.  A probe that fails because the image is missing counts as a
    successful authentication, also when the text of the failure speaks of
    authorization as well; a failure that only speaks of authorization
    gives the login hint, an error that names the registry and wraps
    nothing. *)
Theorem CheckAuth_not_found_first (registry : string) (ref : Named)
    (imgRef : ImageReference c) (cause : string) :
  ParseNormalizedNamed (registry +:+ "/auth-check:test") = inr ref →
  NewReference c ref = inr imgRef →
  NewImageSource c imgRef = inl cause →
  (containsAny (lowered cause) notFoundMarkers = true → check registry = None) ∧
  (containsAny (lowered cause) notFoundMarkers = false →
   containsAny (lowered cause) authMarkers = true →
   check registry = Some (loginHint registry) ∧
   Contains (Error (loginHint registry)) ("docker login " +:+ registry) = true).
Proof.
  intros Hparse Hnew Hsrc. rewrite (CheckAuth_source_error _ _ _ _ Hparse Hnew Hsrc).
  split.
  - by intros ->.
  - intros -> ->. split; [done|]. unfold loginHint. cbn [Error].
    do 2 apply Contains_app_r.
    change (Contains (": run '" +:+ "docker login " +:+ registry +:+ "' first")
                     ("docker login " +:+ registry) = true).
    apply Contains_app_r. rewrite <- append_assoc.
    apply (Contains_intro "").
Qed.

(** X4.  [CheckAuth] and [IsNotFoundOrAuthError] read the same failure
    alike but for three markers: an error the classifier accepts, unless
    it says "does not exist", never ends as a connection failure of
    [CheckAuth]; an error the classifier rejects, unless it says "name
    unknown" or "unknown name", always does. *)
Theorem CheckAuth_agrees_with_classifier (registry : string) (ref : Named)
    (imgRef : ImageReference c) (cause : string) :
  ParseNormalizedNamed (registry +:+ "/auth-check:test") = inr ref →
  NewReference c ref = inr imgRef →
  NewImageSource c imgRef = inl cause →
  (IsNotFoundOrAuthError MapUnicodeToLower (Some (foreignError cause)) = true →
   Contains (lowered cause) "does not exist" = false →
   check registry = None ∨ check registry = Some (loginHint registry)) ∧
  (IsNotFoundOrAuthError MapUnicodeToLower (Some (foreignError cause)) = false →
   Contains (lowered cause) "name unknown" = false →
   Contains (lowered cause) "unknown name" = false →
   check registry = Some (connectFailure registry cause)).
Proof.
  intros Hparse Hnew Hsrc. rewrite (CheckAuth_source_error _ _ _ _ Hparse Hnew Hsrc).
  rewrite IsNotFoundOrAuthError_mentionsAny, mentionsAny_containsAny. cbn [Error].
  unfold containsAny, fallbackMarkers, notFoundMarkers, authMarkers, existsb.
  generalize (lowered cause). intros t.
  split.
  - intros H Hdne. rewrite Hdne in H.
    repeat match goal with
           | |- context [Contains t ?m] => destruct (Contains t m); simpl in *; eauto
           end.
    done.
  - intros H Hname Hunknown. rewrite Hname, Hunknown.
    repeat match goal with
           | H : context [Contains t ?m] |- _ => destruct (Contains t m); simpl in *; try done
           end.
Qed.
End Auth.

(** ** More on the runs of the assembler *)

Lemma parsesOf_app (tr1 tr2 : list Event) :
  parsesOf (tr1 ++ tr2) = parsesOf tr1 ++ parsesOf tr2.
Proof. apply omap_app. Qed.

Lemma WithDigest_inr (adr : string → bool) (ref pinnedRef : Named) (d : Digest) :
  WithDigest adr ref d = inr pinnedRef → pinnedRef = withDigest ref d.
Proof. unfold WithDigest. destruct (adr d); [|done]. by intros [= <-]. Qed.

Lemma seenAt_insert_mono (m : gmap string bool) (key o : string) :
  seenAt m o = true → seenAt (<[key := true]> m) o = true.
Proof. intros H. apply seenAt_insert. by right. Qed.

Section Runs.
Variable ParseFile : string → outcome (list ImageRef).
Variable manifest_Digest : list Byte.byte → outcome Digest.
Variable digest_Parse : string → outcome Digest.
Variable anchoredDigestRegexp : string → bool.
Variable client : Client.

Abbreviation step := (pinRef manifest_Digest digest_Parse anchoredDigestRegexp client).
Abbreviation steps := (pinRefs manifest_Digest digest_Parse anchoredDigestRegexp client).
Abbreviation file :=
  (pinFile ParseFile manifest_Digest digest_Parse anchoredDigestRegexp client).
Abbreviation files :=
  (pinFiles ParseFile manifest_Digest digest_Parse anchoredDigestRegexp client).
Abbreviation generate :=
  (GeneratePolicy ParseFile manifest_Digest digest_Parse anchoredDigestRegexp client).
Abbreviation traceOf :=
  (GeneratePolicy_trace ParseFile manifest_Digest digest_Parse anchoredDigestRegexp client).
Abbreviation pinned := (pinnedBy manifest_Digest digest_Parse client).

(** The branches of one iteration of the inner loop. *)
Ltac pinRef_cases st r :=
  unfold pinRef;
  destruct (seenAt (seen st) (Original r)) eqn:Hseen;
  [|destruct (isDigested (Ref r)) eqn:Hdigested;
    [|destruct (GetDigest manifest_Digest client (Ref r)) as [digestStr [err|]] eqn:Hget;
      [|destruct (digest_Parse digestStr) as [perr|d] eqn:Hparse;
        [|destruct (WithDigest anchoredDigestRegexp (Ref r) d) as [werr|pinnedRef] eqn:Hwith]]]];
  simpl.

(** *** What the loops keep *)

(** A property of the state that every iteration keeps, whatever its
    outcome, holds after the loops. *)
Lemma pinRefs_keeps (P : Run → Prop) :
  (∀ st r, P st → P (step st r).1) →
  ∀ refs st, P st → P (steps st refs).1.
Proof.
  intros Hstep refs. induction refs as [|r refs IH]; intros st HP; simpl; [done|].
  specialize (Hstep st r HP).
  destruct (step st r) as [st' [err|]]; [done|]. by apply IH.
Qed.

Lemma pinFiles_keeps (P : Run → Prop) :
  (∀ st r, P st → P (step st r).1) →
  (∀ st dockerfilePath, P st →
     P {| seen := seen st; pol := pol st;
          trace := trace st ++ [ParseFileCall dockerfilePath] |}) →
  ∀ paths st, P st → P (files st paths).1.
Proof.
  intros Hstep Hparse paths. induction paths as [|p paths IH]; intros st HP; simpl; [done|].
  assert (P (file st p).1) as Hfile.
  { unfold pinFile. destruct (ParseFile p) as [cause|refs]; simpl.
    - by apply Hparse.
    - by apply pinRefs_keeps, Hparse. }
  destruct (file st p) as [st' [err|]]; [done|]. by apply IH.
Qed.

(** The loop over the files of two lists goes through the first list and,
    when that leaves no error, through the second. *)
Lemma pinFiles_app (paths more : list string) (st : Run) :
  files st (paths ++ more)
  = match files st paths with
    | (st', None) => files st' more
    | (st', Some err) => (st', Some err)
    end.
Proof.
  revert st. induction paths as [|p paths IH]; intros st; simpl.
  - by destruct (files st more) as [? [?|]].
  - destruct (file st p) as [st' [err|]]; [done|]. apply IH.
Qed.

(** X5.  A run that fails on a list of files fails with the same error,
    after the same calls, on every list that extends it: the files after
    the failure play no part. *)
Theorem GeneratePolicy_error_of_prefix (paths more : list string) (err : error) :
  generate {| Dockerfiles := paths |} = (None, Some err) →
  generate {| Dockerfiles := paths ++ more |} = (None, Some err) ∧
  traceOf {| Dockerfiles := paths ++ more |} = traceOf {| Dockerfiles := paths |}.
Proof.
  unfold GeneratePolicy, GeneratePolicy_trace. simpl. rewrite pinFiles_app.
  destruct (files start paths) as [st [e|]]; [|done].
  by intros [= <-].
Qed.

(** *** The rules only grow *)

Lemma pinRef_rules_prefix (st : Run) (r : ImageRef) :
  Rules (pol st) `prefix_of` Rules (pol (step st r).1).
Proof. pinRef_cases st r; try done. by apply prefix_app_r. Qed.

Lemma pinFiles_rules_prefix (paths : list string) (st0 st : Run) :
  Rules (pol st0) `prefix_of` Rules (pol st) →
  Rules (pol st0) `prefix_of` Rules (pol (files st paths).1).
Proof.
  revert st. apply (pinFiles_keeps (λ st, Rules (pol st0) `prefix_of` Rules (pol st))).
  - intros st r H. etrans; [done|]. apply pinRef_rules_prefix.
  - done.
Qed.


(** *** A file that brings nothing new *)

Lemma pinRefs_all_seen (refs : list ImageRef) (st : Run) :
  (∀ r, r ∈ refs → seenAt (seen st) (Original r) = true) →
  steps st refs = (st, None).
Proof.
  induction refs as [|r refs IH]; intros Hall; simpl; [done|].
  rewrite pinRef_seen by (apply Hall; by left).
  apply IH. intros r' Hr'. apply Hall. by right.
Qed.

(** X7.  After a run that returned a document, one more file whose
    reference texts all occur in the files of that run changes nothing:
    the longer run returns the same document and makes no further registry
    call.  Listing a file twice is the plain case. *)
Theorem GeneratePolicy_nothing_new (paths : list string) (dockerfilePath : string)
    (refs : list ImageRef) (doc : Policy) :
  generate {| Dockerfiles := paths |} = (Some doc, None) →
  ParseFile dockerfilePath = inr refs →
  (∀ r, r ∈ refs →
        Original r ∈ Original <$> extracted ParseFile {| Dockerfiles := paths |}) →
  generate {| Dockerfiles := paths ++ [dockerfilePath] |} = (Some doc, None) ∧
  callsOf (traceOf {| Dockerfiles := paths ++ [dockerfilePath] |})
  = callsOf (traceOf {| Dockerfiles := paths |}).
Proof.
  intros Hdoc Hparse Hall.
  apply GeneratePolicy_document in Hdoc as (st & Hrun & -> & Htr & [Hseen _ _ _ _] & _).
  simpl in Hrun. unfold GeneratePolicy, GeneratePolicy_trace. simpl.
  rewrite pinFiles_app, Hrun. simpl. unfold pinFile. rewrite Hparse.
  rewrite pinRefs_all_seen.
  - simpl. split; [done|]. by rewrite callsOf_app, app_nil_r.
  - intros r Hr. simpl. apply Hseen. by apply Hall.
Qed.

(** *** What a rule holds *)

Lemma pinRef_pinned (st : Run) (r : ImageRef) :
  Forall pinned (trace st) → Forall pinned (trace (step st r).1).
Proof.
  intros H. pinRef_cases st r; try done.
  - apply Forall_app. split; [done|]. by apply Forall_singleton.
  - apply Forall_app. split; [done|]. by apply Forall_singleton.
  - apply Forall_app. split; [done|]. by apply Forall_singleton.
  - apply Forall_app. split.
    + apply Forall_app. split; [done|]. by apply Forall_singleton.
    + apply Forall_singleton. simpl. exists digestStr, d.
      split_and!; [done..|]. by rewrite (WithDigest_inr _ _ _ _ Hwith).
Qed.

Lemma pinFiles_pinned (paths : list string) :
  Forall pinned (trace (files start paths).1).
Proof.
  apply (pinFiles_keeps (λ st, Forall pinned (trace st))).
  - apply pinRef_pinned.
  - intros st p H. simpl. apply Forall_app. split; [done|]. by apply Forall_singleton.
  - by apply Forall_nil.
Qed.


(** *** One registry call per reference text *)

Lemma pinRef_once (st : Run) (r : ImageRef) :
  OncePerText st → OncePerText (step st r).1.
Proof.
  intros [Hnodup Hmarked].
  assert (Original r ∉ Original <$> callsOf (trace st) ∨ seenAt (seen st) (Original r) = true)
    as Hfresh.
  { destruct (seenAt (seen st) (Original r)) eqn:Hs; [by right|left].
    intros (r' & Ho & Hr')%list_elem_of_fmap. apply Hmarked in Hr'. congruence. }
  assert (OncePerText {| seen := <[Original r := true]> (seen st); pol := pol st;
                         trace := trace st |}) as Hmark.
  { split; simpl; [done|]. intros r' Hr'. by apply seenAt_insert_mono, Hmarked. }
  assert (seenAt (seen st) (Original r) = false →
          ∀ p, OncePerText {| seen := <[Original r := true]> (seen st); pol := p;
                              trace := trace st ++ [GetDigestCall r] |}) as Hcall.
  { intros Hs p. destruct Hfresh as [Hfresh|?]; [|congruence]. split; simpl.
    - rewrite callsOf_app, fmap_app. simpl. apply NoDup_app. split_and!; [done| |].
      + intros o Ho ->%list_elem_of_singleton. done.
      + apply NoDup_singleton.
    - intros r'. rewrite callsOf_app, elem_of_app. simpl.
      intros [Hr'| ->%list_elem_of_singleton].
      + by apply seenAt_insert_mono, Hmarked.
      + apply seenAt_insert. by left. }
  pinRef_cases st r; try done; try (by apply Hcall).
  destruct (Hcall eq_refl (pol st)) as [Hn Hm]. simpl in *.
  split; simpl.
  - by rewrite callsOf_app, app_nil_r.
  - intros r'. rewrite callsOf_app, app_nil_r. apply Hm.
Qed.

Lemma pinFiles_once (paths : list string) : OncePerText (files start paths).1.
Proof.
  apply (pinFiles_keeps OncePerText).
  - apply pinRef_once.
  - intros st p [Hn Hm]. split; simpl.
    + by rewrite callsOf_app, app_nil_r.
    + intros r. rewrite callsOf_app, app_nil_r. apply Hm.
  - split; simpl; [apply NoDup_nil_2|]. by intros r ?%elem_of_nil.
Qed.

(** X9.  A run, whether it returns a document or stops on an error, asks
    the registry at most once per reference text; in a run that returns a
    document the registry calls and the rules are as many, and the rule at
    a position selects the text of the call at that position. *)
Theorem GeneratePolicy_one_call_per_text (opts : Options) :
  NoDup (Original <$> callsOf (traceOf opts)) ∧
  ∀ doc, generate opts = (Some doc, None) →
         selectorIdentifier <$> Rules doc
         = (λ r, imageScheme +:+ Original r) <$> callsOf (traceOf opts).
Proof.
  split.
  - apply (pinFiles_once (Dockerfiles opts)).
  - intros doc (st & _ & -> & -> & Hinv & _)%GeneratePolicy_document.
    rewrite (inv_rules _ _ _ _ _ Hinv), (inv_calls _ _ _ _ _ Hinv),
      <- (inv_pins _ _ _ _ _ Hinv).
    rewrite <- !list_fmap_compose. done.
Qed.

(** *** The files a run opens *)

Lemma pinRef_parses (st : Run) (r : ImageRef) :
  parsesOf (trace (step st r).1) = parsesOf (trace st).
Proof. pinRef_cases st r; rewrite ?parsesOf_app; simpl; by rewrite ?app_nil_r. Qed.

Lemma pinRefs_parses (refs : list ImageRef) (st : Run) :
  parsesOf (trace (steps st refs).1) = parsesOf (trace st).
Proof.
  revert st. induction refs as [|r refs IH]; intros st; simpl; [done|].
  pose proof (pinRef_parses st r) as Hstep.
  destruct (step st r) as [st' [err|]]; [done|]. by rewrite IH.
Qed.

Lemma pinFile_parses (st : Run) (dockerfilePath : string) :
  parsesOf (trace (file st dockerfilePath).1) = parsesOf (trace st) ++ [dockerfilePath].
Proof.
  unfold pinFile. destruct (ParseFile dockerfilePath) as [cause|refs]; simpl.
  - by rewrite parsesOf_app.
  - rewrite pinRefs_parses. simpl. by rewrite parsesOf_app.
Qed.

Lemma pinFiles_parses (paths : list string) (st : Run) :
  ∃ opened rest,
    paths = opened ++ rest ∧
    parsesOf (trace (files st paths).1) = parsesOf (trace st) ++ opened ∧
    ((files st paths).2 = None → rest = []) ∧
    ((files st paths).2 ≠ None → opened ≠ []).
Proof.
  revert st. induction paths as [|p paths IH]; intros st; simpl.
  - exists [], []. split_and!.
    + done.
    + by rewrite app_nil_r.
    + done.
    + intros H. by destruct H.
  - pose proof (pinFile_parses st p) as Hfile.
    destruct (file st p) as [st' [err|]]; simpl in *.
    + exists [p], paths. by split_and!.
    + destruct (IH st') as (opened & rest & -> & Hopened & Hnone & Hsome).
      exists (p :: opened), rest. rewrite Hopened, Hfile, <- app_assoc. by split_and!.
Qed.

(** X10.  A run opens the files in the order supplied, one parse per
    listing: the files it parsed are the first files of the list, all of
    them when it returns a document, and at least one
    when it returns an error; no file after the last parsed one is
    opened. *)
Theorem GeneratePolicy_files_opened (opts : Options) :
  ∃ opened rest,
    Dockerfiles opts = opened ++ rest ∧
    parsesOf (traceOf opts) = opened ∧
    (∀ doc, generate opts = (Some doc, None) → rest = []) ∧
    (∀ err, generate opts = (None, Some err) → opened ≠ []).
Proof.
  unfold GeneratePolicy, GeneratePolicy_trace.
  destruct (pinFiles_parses (Dockerfiles opts) start)
    as (opened & rest & Hsplit & Hopened & Hnone & Hsome).
  exists opened, rest. split_and!; [done..| |].
  - intros doc. destruct (files start (Dockerfiles opts)) as [st [e|]]; [done|].
    intros _. by apply Hnone.
  - intros err. destruct (files start (Dockerfiles opts)) as [st [e|]]; [|done].
    intros _. by apply Hsome.
Qed.
End Runs.

(** ** More on the hardened-mirror mapping *)

(** X11.  For an eligible reference, the name handed to the parser is the
    rendering of the reference, digest left out, with the leading
    docker.io/library/ replaced by dhi.io/: the rest of the path and the
    tag go through as they are, and a digest never does. *)
Theorem MapToDHI_swaps_prefix (P : string → outcome Named) (ref : Named) :
  CanMapToDHI ref = true →
  ∃ rest,
    Named_String (withoutDigest ref) = "docker.io/library/" +:+ rest ∧
    MapToDHI P ref = parsed (P ("dhi.io/" +:+ rest)).
Proof.
  intros Hcan. pose proof (proj1 (CanMapToDHI_spec ref) Hcan) as [Hd Hp].
  destruct (HasPrefix_inv _ _ Hp) as [rest Hrest].
  exists (rest +:+ match tag ref with Some t => ":" +:+ t | None => "" end).
  split.
  - unfold Named_String, withoutDigest, Name. simpl.
    unfold Domain, Path in *. rewrite Hd, Hrest. simpl.
    by rewrite append_nil_r, !append_assoc.
  - rewrite (MapToDHI_eligible _ _ Hcan), Named_String_hardened, Hrest, TrimPrefix_app.
    unfold parsed, Registry. destruct (tag ref) as [t|].
    + by rewrite !append_assoc.
    + by rewrite append_nil_r.
Qed.

Lemma MapToDHI_swaps_prefix_witness :
  ∃ rest,
    Named_String (withoutDigest Fixture.alpine) = "docker.io/library/" +:+ rest ∧
    MapToDHI Fixture.parseNamed Fixture.alpine
    = parsed (Fixture.parseNamed ("dhi.io/" +:+ rest)).
Proof.
  apply (MapToDHI_swaps_prefix Fixture.parseNamed Fixture.alpine). reflexivity.
Defined.

(** ** The version string *)

Lemma sliceTo_length (n : nat) (s : string) :
  n ≤ String.length s → String.length (version.sliceTo n s) = n.
Proof.
  revert s. induction n as [|n IH]; intros s Hn; [done|].
  destruct s as [|c s]; simpl in *; [lia|]. rewrite IH; [done|lia].
Qed.

Lemma sliceTo_prefix (n : nat) (s : string) :
  HasPrefix s (version.sliceTo n s) = true.
Proof.
  revert s. induction n as [|n IH]; intros s; [done|].
  destruct s as [|c s]; simpl; [done|]. by rewrite Ascii.eqb_refl, IH.
Qed.

Lemma length_append (a b : string) :
  String.length (a +:+ b) = String.length a + String.length b.
Proof. induction a as [|c a IH]; [done|]. rewrite append_cons. simpl. by rewrite IH. Qed.

(** X12.  [Version] shows a commit only when it is longer than seven
    bytes and is not "unknown": it then appends a space and, in
    parentheses, the first seven bytes of the commit, ten bytes in all.  A
    commit of seven bytes or fewer, an abbreviated hash for one, is left
    out and the version is returned as it is. *)
Theorem Version_commit_shown (v commit : string) :
  (commit = "unknown" ∨ String.length commit ≤ 7 → version.Version v commit = v) ∧
  (commit ≠ "unknown" → 7 < String.length commit →
   ∃ short,
     version.Version v commit = v +:+ " (" +:+ short +:+ ")" ∧
     String.length short = 7 ∧ HasPrefix commit short = true ∧
     String.length (version.Version v commit) = String.length v + 10).
Proof.
  unfold version.Version. split.
  - intros [->|Hlen]; [done|].
    replace (7 <? String.length commit) with false
      by (symmetry; apply Nat.ltb_ge; lia).
    by rewrite andb_false_r.
  - intros Hne Hlen. apply String.eqb_neq in Hne. rewrite Hne.
    replace (7 <? String.length commit) with true
      by (symmetry; apply Nat.ltb_lt; lia).
    cbn [negb andb]. exists (version.sliceTo 7 commit).
    assert (String.length (version.sliceTo 7 commit) = 7) as Hshort
      by (apply sliceTo_length; lia).
    split_and!; [done|done|apply sliceTo_prefix|].
    rewrite !length_append, Hshort. cbn [String.length]. lia.
Qed.

Lemma Version_commit_shown_witness :
  version.Version "1.2.0" "abc1234" = "1.2.0" ∧
  ∃ short,
    version.Version "1.2.0" "abc1234def" = "1.2.0" +:+ " (" +:+ short +:+ ")" ∧
    String.length short = 7 ∧ HasPrefix "abc1234def" short = true ∧
    String.length (version.Version "1.2.0" "abc1234def") = String.length "1.2.0" + 10.
Proof.
  split.
  - apply (proj1 (Version_commit_shown "1.2.0" "abc1234")). right. simpl. lia.
  - apply (proj2 (Version_commit_shown "1.2.0" "abc1234def")).
    + discriminate.
    + simpl. lia.
Defined.

(** ** The mock HTTP server *)

Lemma hasRequest_true (reqs : list string) (pattern : string) :
  testutil.hasRequest reqs pattern = true ↔
  ∃ req, req ∈ reqs ∧ Contains req pattern = true.
Proof.
  induction reqs as [|req reqs IH]; simpl.
  - split; [done|]. by intros (? & ?%elem_of_nil & _).
  - destruct (Contains req pattern) eqn:Hc.
    + split; [|done]. intros _. exists req. split; [by left|done].
    + rewrite IH. split.
      * intros (r & Hr & Hm). exists r. split; [by right|done].
      * intros (r & [->|Hr]%elem_of_cons & Hm); [congruence|by exists r].
Qed.

Lemma Contains_empty (s : string) : Contains s "" = true.
Proof. by destruct s. Qed.

Section Mock.
Variable Sum256 : string → string.
Variable EncodeToString : string → string.
Variable CanonicalMIMEHeaderKey : string → string.
Variable rangeOrder : gmap string string → list (string * string).
Variable notFoundHeader : gmap string string.
Variable notFoundBody : string.

Abbreviation handle :=
  (testutil.handler Sum256 EncodeToString CanonicalMIMEHeaderKey rangeOrder
     notFoundHeader notFoundBody).
Abbreviation add := (testutil.AddFileWithHeaders Sum256 EncodeToString).
Abbreviation get := (testutil.Header_Get CanonicalMIMEHeaderKey).



(** X15.  Every request is logged, once and behind the earlier ones, as
    the method, a space and the path, also when the path is unknown and
    the answer is 404; [HasRequest] then finds every pattern that occurs
    in that entry, and the files are left alone. *)
Theorem mock_logs_every_request (ms : testutil.MockHTTPServer)
    (method path pattern : string) :
  testutil.Requests (handle ms method path).1
  = testutil.Requests ms ++ [method +:+ " " +:+ path] ∧
  testutil.files (handle ms method path).1 = testutil.files ms ∧
  (testutil.files ms !! path = None →
   testutil.status (handle ms method path).2 = 404) ∧
  (Contains (method +:+ " " +:+ path) pattern = true →
   testutil.HasRequest (handle ms method path).1 pattern = true).
Proof.
  assert (testutil.requests (handle ms method path).1
          = testutil.requests ms ++ [method +:+ " " +:+ path]
          ∧ testutil.files (handle ms method path).1 = testutil.files ms) as [Hlog Hfiles].
  { unfold testutil.handler. destruct (testutil.files ms !! path) as [f|]; [|done].
    by destruct (String.eqb method "HEAD"). }
  split_and!; [done|done| |].
  - intros Hnone. unfold testutil.handler. by rewrite Hnone.
  - intros Hc. unfold testutil.HasRequest. rewrite Hlog. apply hasRequest_true.
    exists (method +:+ " " +:+ path). split; [|done].
    apply elem_of_app. right. by apply list_elem_of_singleton.
Qed.
End Mock.

(** X16.  [HasRequest] is true exactly when some logged request contains
    the pattern; with the empty pattern it tells whether any request was
    logged at all; after [ResetRequests] it is false for every pattern,
    the empty one included, while the files stay. *)
Theorem HasRequest_log (ms : testutil.MockHTTPServer) (pattern : string) :
  (testutil.HasRequest ms pattern = true ↔
   ∃ req, req ∈ testutil.Requests ms ∧ Contains req pattern = true) ∧
  (testutil.HasRequest ms "" = true ↔ testutil.Requests ms ≠ []) ∧
  testutil.HasRequest (testutil.ResetRequests ms) pattern = false ∧
  testutil.files (testutil.ResetRequests ms) = testutil.files ms.
Proof.
  split_and!; [apply hasRequest_true| |done|done].
  unfold testutil.HasRequest, testutil.Requests.
  destruct (testutil.requests ms) as [|req reqs]; simpl; [done|].
  by rewrite Contains_empty.
Qed.

(** ** The further properties on concrete cases *)

Lemma CheckAuth_not_found_first_witness :
  CheckAuth (λ s, s) Fixture.parseNamed
    (Scenario.failing "unauthorized: repository not found") "ghcr.io" = None ∧
  CheckAuth (λ s, s) Fixture.parseNamed
    (Scenario.failing "requested access to the resource is denied") "ghcr.io"
  = Some (loginHint "ghcr.io").
Proof.
  split.
  - apply (proj1 (CheckAuth_not_found_first (λ s, s) Fixture.parseNamed
             (Scenario.failing "unauthorized: repository not found") "ghcr.io"
             {| domain := "ghcr.io"; path := "auth-check"; tag := Some "test"; digest := None |}
             {| domain := "ghcr.io"; path := "auth-check"; tag := Some "test"; digest := None |}
             "unauthorized: repository not found" eq_refl eq_refl eq_refl)).
    reflexivity.
  - apply (proj2 (CheckAuth_not_found_first (λ s, s) Fixture.parseNamed
             (Scenario.failing "requested access to the resource is denied") "ghcr.io"
             {| domain := "ghcr.io"; path := "auth-check"; tag := Some "test"; digest := None |}
             {| domain := "ghcr.io"; path := "auth-check"; tag := Some "test"; digest := None |}
             "requested access to the resource is denied" eq_refl eq_refl eq_refl));
      reflexivity.
Defined.

Lemma CheckAuth_agrees_with_classifier_witness :
  (CheckAuth (λ s, s) Fixture.parseNamed
     (Scenario.failing "requested access to the resource is denied") "ghcr.io" = None ∨
   CheckAuth (λ s, s) Fixture.parseNamed
     (Scenario.failing "requested access to the resource is denied") "ghcr.io"
   = Some (loginHint "ghcr.io")) ∧
  CheckAuth (λ s, s) Fixture.parseNamed (Scenario.failing "connection refused") "ghcr.io"
  = Some (connectFailure "ghcr.io" "connection refused").
Proof.
  split.
  - apply (proj1 (CheckAuth_agrees_with_classifier (λ s, s) Fixture.parseNamed
             (Scenario.failing "requested access to the resource is denied") "ghcr.io"
             {| domain := "ghcr.io"; path := "auth-check"; tag := Some "test"; digest := None |}
             {| domain := "ghcr.io"; path := "auth-check"; tag := Some "test"; digest := None |}
             "requested access to the resource is denied" eq_refl eq_refl eq_refl));
      reflexivity.
  - apply (proj2 (CheckAuth_agrees_with_classifier (λ s, s) Fixture.parseNamed
             (Scenario.failing "connection refused") "ghcr.io"
             {| domain := "ghcr.io"; path := "auth-check"; tag := Some "test"; digest := None |}
             {| domain := "ghcr.io"; path := "auth-check"; tag := Some "test"; digest := None |}
             "connection refused" eq_refl eq_refl eq_refl));
      reflexivity.
Defined.

Lemma GeneratePolicy_error_of_prefix_witness :
  Fixture.generate "" (["Dockerfile"; "nope"] ++ ["Dockerfile.ci"])
  = (None, Some (wrapError "failed to parse nope: no such file or directory"
                           (foreignError "no such file or directory"))).
Proof.
  apply (GeneratePolicy_error_of_prefix Fixture.files Fixture.digestOf
           Fixture.parseDigest Fixture.digestShape (Fixture.hub "")
           ["Dockerfile"; "nope"] ["Dockerfile.ci"]).
  vm_compute. reflexivity.
Defined.


Lemma GeneratePolicy_nothing_new_witness :
  Fixture.generate "" (["Dockerfile"] ++ ["Dockerfile"])
  = (Some {| Rules := [Fixture.alpineRule; Fixture.golangRule] |}, None).
Proof.
  apply (GeneratePolicy_nothing_new Fixture.files Fixture.digestOf
           Fixture.parseDigest Fixture.digestShape (Fixture.hub "")
           ["Dockerfile"] "Dockerfile"
           [Fixture.alpineRef; Fixture.golangRef; Fixture.alpineRef]).
  - vm_compute. reflexivity.
  - reflexivity.
  - apply Forall_forall.
    repeat (apply Forall_cons; split; [apply list_elem_of_In; vm_compute; auto|]).
    apply Forall_nil_2.
Defined.


Lemma GeneratePolicy_one_call_per_text_witness :
  selectorIdentifier <$> [Fixture.alpineRule; Fixture.golangRule]
  = (λ r, imageScheme +:+ Original r)
    <$> callsOf (Fixture.traceOf "" ["Dockerfile"; "Dockerfile.pinned"]).
Proof.
  apply (proj2 (GeneratePolicy_one_call_per_text Fixture.files Fixture.digestOf
           Fixture.parseDigest Fixture.digestShape (Fixture.hub "")
           {| Dockerfiles := ["Dockerfile"; "Dockerfile.pinned"] |})
           {| Rules := [Fixture.alpineRule; Fixture.golangRule] |}).
  vm_compute. reflexivity.
Defined.



Lemma mock_logs_every_request_witness :
  testutil.status (testutil.handler (λ s, s) (λ s, s) (λ s, s) map_to_list ∅ ""
                     testutil.NewMockHTTPServer "HEAD" "/missing").2 = 404 ∧
  testutil.HasRequest (testutil.handler (λ s, s) (λ s, s) (λ s, s) map_to_list ∅ ""
                         testutil.NewMockHTTPServer "HEAD" "/missing").1 "HEAD /miss" = true.
Proof.
  split.
  - apply (mock_logs_every_request (λ s, s) (λ s, s) (λ s, s) map_to_list ∅ ""
             testutil.NewMockHTTPServer "HEAD" "/missing" ""). reflexivity.
  - apply (mock_logs_every_request (λ s, s) (λ s, s) (λ s, s) map_to_list ∅ ""
             testutil.NewMockHTTPServer "HEAD" "/missing" "HEAD /miss"). reflexivity.
Defined.

Lemma GeneratePolicy_files_opened_witness :
  ∃ opened rest,
    ["Dockerfile"; "nope"; "Dockerfile.ci"] = opened ++ rest ∧
    parsesOf (Fixture.traceOf "" ["Dockerfile"; "nope"; "Dockerfile.ci"]) = opened ∧
    opened ≠ [].
Proof.
  destruct (GeneratePolicy_files_opened Fixture.files Fixture.digestOf
              Fixture.parseDigest Fixture.digestShape (Fixture.hub "")
              {| Dockerfiles := ["Dockerfile"; "nope"; "Dockerfile.ci"] |})
    as (opened & rest & Hsplit & Hopened & _ & Herr).
  exists opened, rest. split_and!; [exact Hsplit|exact Hopened|].
  apply (Herr (wrapError "failed to parse nope: no such file or directory"
                         (foreignError "no such file or directory"))).
  vm_compute. reflexivity.
Defined.

Lemma HasRequest_log_witness :
  testutil.HasRequest
    (testutil.handler (λ s, s) (λ s, s) (λ s, s) map_to_list ∅ ""
       testutil.NewMockHTTPServer "GET" "/f").1 "/f" = true.
Proof.
  apply (proj2 (proj1 (HasRequest_log
           (testutil.handler (λ s, s) (λ s, s) (λ s, s) map_to_list ∅ ""
              testutil.NewMockHTTPServer "GET" "/f").1 "/f"))).
  exists "GET /f". split; [|reflexivity].
  apply list_elem_of_In. vm_compute. auto.
Defined.
